(** * Resource teardown sweep of the ml-hackathon notebook

    A shallow embedding of the last code cell of [sample-notebook.ipynb]
    ("Delete all versions and all models"): the five helper functions
    [get_models], [get_versions], [delete_version], [delete_model] and
    [is_version_deleted], and the top-level script that calls them.

    The script talks to the AI Platform management API, prints, and
    sleeps.  All three are recorded as events; a run is a function of
    the history so far to an outcome and the events it adds.  The API is
    a parameter: any function of the history and the request. *)

From Stdlib Require Import ZArith Lia.
From stdpp Require Import gmap strings list.

(** ** Data: JSON payloads as the script sees them *)

(** Scalar field of a resource.  The script never looks inside one: it
    passes them on, prints them and, in [list.remove], compares them. *)
Inductive value : Type :=
  | VNone
  | VBool (b : bool)
  | VInt (z : Z)
  | VStr (s : string).

#[global] Instance value_eq_dec : EqDecision value.
Proof. solve_decision. Defined.

(** A Model or a Version resource: a Python dict with string keys. *)
Abbreviation dict := (gmap string value).

(** What a key of an API response holds: a scalar, or a list of
    resources (["models"], ["versions"]). *)
Inductive payload : Type :=
  | PVal (v : value)
  | PList (items : list dict).

#[global] Instance payload_eq_dec : EqDecision payload.
Proof. solve_decision. Defined.

Abbreviation response := (gmap string payload).

(** ** Python's [==]

    [list.remove] compares with [==].  On these payloads [==] is
    structural but for one thing: [bool] is a subclass of [int], so
    [True == 1] and [False == 0], also inside dicts and lists.
    [py_norm] maps a payload to the representative of its [==] class,
    with every boolean replaced by its integer; two payloads are [==]
    when their representatives are the same. *)
Class PyNorm (A : Type) := py_norm : A -> A.

#[global] Instance value_norm : PyNorm value := fun v =>
  match v with
  | VBool b => VInt (Z.b2z b)
  | _ => v
  end.

#[global] Instance dict_norm : PyNorm dict := fmap (py_norm (A:=value)).

#[global] Instance payload_norm : PyNorm payload := fun p =>
  match p with
  | PVal v => PVal (py_norm v)
  | PList items => PList (py_norm <$> items)
  end.

(** [x == y] *)
Definition py_eq {A} `{PyNorm A} (x y : A) : Prop := py_norm x = py_norm y.

#[global] Instance py_eq_dec {A} `{EqDecision A, PyNorm A} (x y : A)
  : Decision (py_eq x y) := decide (py_norm x = py_norm y).

(** ** Events *)

(** The five management-API methods the cell calls, with the keyword
    argument each one is given. *)
Inductive request : Type :=
  | ModelsList (parent : string)
  | VersionsList (parent : value)
  | VersionsDelete (name : value)
  | ModelsDelete (name : value)
  | OperationsGet (name : payload).

#[global] Instance request_eq_dec : EqDecision request.
Proof. solve_decision. Defined.

Inductive printable : Type :=
  | PStr (s : string)
  | PValue (v : value)
  | PPayload (p : payload)
  | PResponse (r : response).

(** [Call rq None] is a request whose [execute()] raised. *)
Inductive event : Type :=
  | Call (rq : request) (rs : option response)
  | Sleep (seconds : Z)
  | Print (args : list printable).

Abbreviation trace := (list event).

(** ** Outcomes *)

Inductive exn : Type :=
  | KeyError (key : string)
  | IndexError
  | NameError (name : string)
  | ValueError
  | TypeError
  | AttributeError
  | HttpError.

(** [Running]: a [while] loop was still going when the round budget of
    the model ran out.  The script itself has no such budget. *)
Inductive outcome (A : Type) : Type :=
  | Ret (a : A)
  | Raise (e : exn)
  | Running.
Arguments Ret {A} a.
Arguments Raise {A} e.
Arguments Running {A}.

(** A computation maps the history to its outcome and the events it
    emitted, oldest first. *)
Definition M (A : Type) : Type := trace -> outcome A * trace.

Definition ret {A} (a : A) : M A := fun _ => (Ret a, []).

Definition raise {A} (e : exn) : M A := fun _ => (Raise e, []).

Definition running {A} : M A := fun _ => (Running, []).

Definition bind {A B} (m : M A) (f : A -> M B) : M B :=
  fun h =>
    match m h with
    | (Ret a, e1) => let '(o, e2) := f a (h ++ e1) in (o, e1 ++ e2)
    | (Raise x, e1) => (Raise x, e1)
    | (Running, e1) => (Running, e1)
    end.

Notation "x <- m ;; k" := (bind m (fun x => k))
  (at level 100, m at next level, right associativity).
Notation "m ;;; k" := (bind m (fun _ => k))
  (at level 100, right associativity).

Definition emit (e : event) : M unit := fun _ => (Ret tt, [e]).

Definition print (args : list printable) : M unit := emit (Print args).

(** [time.sleep(s)] *)
Definition sleep (s : Z) : M unit := emit (Sleep s).

(** [d[k]] on a dict *)
Definition getitem {V} (k : string) (d : gmap string V) : M V :=
  match d !! k with
  | Some v => ret v
  | None => raise (KeyError k)
  end.

(** [k in d] on a dict *)
Definition contains {V} (k : string) (d : gmap string V) : bool :=
  bool_decide (is_Some (d !! k)).

(** [l.remove(x)]: drops the first item [y] of [l] with [y == x];
    [ValueError] when there is none. *)
Fixpoint remove_first {A} `{EqDecision A, PyNorm A} (x : A) (l : list A)
    : option (list A) :=
  match l with
  | [] => None
  | y :: l' =>
      if decide (py_eq y x) then Some l' else cons y <$> remove_first x l'
  end.

Definition list_remove {A} `{EqDecision A, PyNorm A} (x : A) (l : list A)
    : M (list A) :=
  match remove_first x l with
  | Some l' => ret l'
  | None => raise ValueError
  end.

(** [for x in seq: body], where the body may change the list that is
    being iterated.  Python's list iterator keeps an index [i]; each step
    reads item [i] of the list as it is now, and stops when [i] is past
    its end.  [s] is the state the body works on and [items s] the list
    inside it.  [n] bounds the number of steps; the loops below start it
    at the length of the list, which their bodies never grow. *)
Fixpoint for_in {A St} (items : St -> list A) (body : A -> St -> M St)
    (n i : nat) (s : St) : M St :=
  match items s !! i with
  | None => ret s
  | Some x =>
      match n with
      | O => running
      | S n' => s' <- body x s ;; for_in items body n' (S i) s'
      end
  end.

(** [for x in l: body] over a list that is not changed. *)
Fixpoint for_each {A St} (body : A -> St -> M St) (l : list A) (s : St) : M St :=
  match l with
  | [] => ret s
  | x :: l' => s' <- body x s ;; for_each body l' s'
  end.

Section Sweep.

(** The management API: what [execute()] returns for a request, given
    everything that happened before; [None] when it raises. *)
Variable api : trace -> request -> option response.

Definition execute (rq : request) : M response :=
  fun h =>
    match api h rq with
    | Some r => (Ret r, [Call rq (Some r)])
    | None => (Raise HttpError, [Call rq None])
    end.

Definition get_models (project : string) : M payload :=
  response <- execute (ModelsList ("projects/" +:+ project)) ;;
  getitem "models" response.

Definition get_versions (model : value) : M payload :=
  response <- execute (VersionsList model) ;;
  getitem "versions" response.

(** [print(error)] names a variable that is bound nowhere in the
    notebook: evaluating the argument raises before anything is
    printed. *)
Definition delete_version (version : dict) : M payload :=
  name <- getitem "name" version ;;
  print [PStr "Deleting version: "; PValue name] ;;;
  response <- execute (VersionsDelete name) ;;
  (if contains "error" response then raise (NameError "error") else ret tt) ;;;
  getitem "name" response.

Definition delete_model (model : dict) : M unit :=
  name <- getitem "name" model ;;
  print [PStr "Deleting model: "; PValue name] ;;;
  response <- execute (ModelsDelete name) ;;
  if contains "error" response then raise (NameError "error") else ret tt.

Definition is_version_deleted (operation : payload) : M bool :=
  print [PStr "Checking status for operation: "; PPayload operation] ;;;
  response <- execute (OperationsGet operation) ;;
  print [PResponse response] ;;;
  if contains "done" response then ret true else ret false.

(** What [for model in models] iterates over.  A list of resources is
    the expected payload; the empty string iterates zero times, any
    other scalar fails before the first call of the body. *)
Definition models_seq (p : payload) : M (list dict) :=
  match p with
  | PList l => ret l
  | PVal (VStr "") => ret []
  | PVal _ => raise TypeError
  end.

(** The same for [versions]: a character of a non-empty string passes
    the ["isDefault" not in version] test and [versions.remove] then
    fails, as strings have no such method. *)
Definition versions_seq (p : payload) : M (list dict) :=
  match p with
  | PList l => ret l
  | PVal (VStr "") => ret []
  | PVal (VStr _) => raise AttributeError
  | PVal _ => raise TypeError
  end.

(** Body of [for version in versions]; the state is
    [(versions, deletions_in_progress)]. *)
Definition non_default_body (version : dict) (s : list dict * list payload)
    : M (list dict * list payload) :=
  if negb (contains "isDefault" version) then
    versions' <- list_remove version (fst s) ;;
    op <- delete_version version ;;
    ret (versions', snd s ++ [op])
  else ret s.

Definition delete_non_default (versions : list dict)
    : M (list dict * list payload) :=
  for_in fst non_default_body (length versions) 0 (versions, []).

(** Body of [for deletion_in_progress in deletions_in_progress] (and of
    its twin over [default_version_deletions]). *)
Definition poll_body (op : payload) (pending : list payload) : M (list payload) :=
  done <- is_version_deleted op ;;
  if done then
    print [PStr "Deletion completed: "; PPayload op] ;;;
    list_remove op pending
  else ret pending.

Definition poll_round (pending : list payload) : M (list payload) :=
  for_in id poll_body (length pending) 0 pending.

(** [while len(pending) > 0: ...].  The cell has this loop twice, over
    [deletions_in_progress] and over [default_version_deletions], the
    same text up to the variable names.  [fuel] bounds the rounds. *)
Fixpoint wait_until_deleted (fuel : nat) (pending : list payload) : M unit :=
  match pending with
  | [] => ret tt
  | _ :: _ =>
      match fuel with
      | O => running
      | S fuel' =>
          print [PStr "Waiting 5s"] ;;;
          sleep 5 ;;;
          pending' <- poll_round pending ;;
          wait_until_deleted fuel' pending'
      end
  end.

(** [versions[0]] *)
Definition first_item {A} (l : list A) : M A :=
  match l !! 0%nat with
  | Some x => ret x
  | None => raise IndexError
  end.

(** Body of [for model in models]; the state is
    [default_version_deletions]. *)
Definition sweep_model (fuel : nat) (model : dict)
    (default_version_deletions : list payload) : M (list payload) :=
  name <- getitem "name" model ;;
  print [PStr "Model: "; PValue name] ;;;
  vs <- get_versions name ;;
  versions <- versions_seq vs ;;
  s <- delete_non_default versions ;;
  wait_until_deleted fuel (snd s) ;;;
  v0 <- first_item (fst s) ;;
  op <- delete_version v0 ;;
  ret (default_version_deletions ++ [op]).

Definition delete_models (models : list dict) : M unit :=
  for_each (fun model _ => delete_model model) models tt.

(** The top-level script. *)
Definition sweep (fuel : nat) (project : string) : M unit :=
  ms <- get_models project ;;
  models <- models_seq ms ;;
  default_version_deletions <- for_each (sweep_model fuel) models [] ;;
  wait_until_deleted fuel default_version_deletions ;;;
  delete_models models.

End Sweep.

(** ** Reading a trace *)

Definition version_deletes (t : trace) : list value :=
  omap (fun e => match e with Call (VersionsDelete n) _ => Some n | _ => None end) t.

Definition model_deletes (t : trace) : list value :=
  omap (fun e => match e with Call (ModelsDelete n) _ => Some n | _ => None end) t.

Definition polls (t : trace) : list payload :=
  omap (fun e => match e with Call (OperationsGet op) _ => Some op | _ => None end) t.

Definition sleeps (t : trace) : list Z :=
  omap (fun e => match e with Sleep s => Some s | _ => None end) t.

Definition requests (t : trace) : list request :=
  omap (fun e => match e with Call rq _ => Some rq | _ => None end) t.

(** A get-operation call in [t], for [op] or for a handle that is [==]
    to it, whose response has the key ["done"]. *)
Definition confirmed (op : payload) (t : trace) : Prop :=
  ∃ op' r, py_eq op' op ∧ Call (OperationsGet op') (Some r) ∈ t
           ∧ is_Some (r !! "done").

(** Every version-delete call of [t] was answered with an operation
    name, and that operation is confirmed later in [t] or is still in
    [ops]. *)
Fixpoint tracked (ops : list payload) (t : trace) : Prop :=
  match t with
  | [] => True
  | e :: t' =>
      match e with
      | Call (VersionsDelete _) rs =>
          ∃ r op, rs = Some r ∧ r !! "name" = Some op ∧ (confirmed op t' ∨ op ∈ ops)
      | _ => True
      end ∧ tracked ops t'
  end.

(** Every version-delete operation of [t] is confirmed in [t]. *)
Definition settled (t : trace) : Prop := tracked [] t.

(** What the API's operation resource means by completion: the flag
    ["done"] is true. *)
Definition reports_completion (r : response) : Prop :=
  r !! "done" = Some (PVal (VBool true)).

#[global] Instance reports_completion_dec r : Decision (reports_completion r).
Proof. unfold reports_completion. apply _. Defined.

(** The answered get-operation calls of [t]: handle and answer. *)
Definition poll_log (t : trace) : list (payload * response) :=
  omap (fun e => match e with
                 | Call (OperationsGet op) (Some r) => Some (op, r)
                 | _ => None
                 end) t.

(** The answered version-delete calls of [t]: version name and the
    operation handle in the answer. *)
Definition delete_log (t : trace) : list (value * option payload) :=
  omap (fun e => match e with
                 | Call (VersionsDelete n) (Some r) => Some (n, r !! "name")
                 | _ => None
                 end) t.

(** ** Reasoning about runs *)

(** [spec m h Q F]: run from history [h], [m] either returns [a] having
    emitted [e] with [Q a e], or stops (raising [Some x], or still
    running [None]) having emitted [e] with [F c e]. *)
Definition spec {A} (m : M A) (h : trace)
    (Q : A -> trace -> Prop) (F : option exn -> trace -> Prop) : Prop :=
  match m h with
  | (Ret a, e) => Q a e
  | (Raise x, e) => F (Some x) e
  | (Running, e) => F None e
  end.

(** ** Parts of the script *)

Section Parts.

Variable api : trace -> request -> option response.

(** What is left of [sweep_model] once the versions are listed. *)
Definition delete_versions (fuel : nat) (vs : payload) (dvd : list payload)
    : M (list payload) :=
  versions <- versions_seq vs ;;
  s <- delete_non_default api versions ;;
  wait_until_deleted api fuel (snd s) ;;;
  v0 <- first_item (fst s) ;;
  op <- delete_version api v0 ;;
  ret (dvd ++ [op]).

(** The body of the [while] loop, [k] times over. *)
Fixpoint rounds (k : nat) (pending : list payload) : M (list payload) :=
  match k with
  | O => ret pending
  | S k' =>
      print [PStr "Waiting 5s"] ;;;
      sleep 5 ;;;
      pending' <- poll_round api pending ;;
      rounds k' pending'
  end.

(** No response for [op], or for a handle that is [==] to it, ever has
    the key ["done"]. *)
Definition never_done (op : payload) : Prop :=
  forall op' h r, py_eq op' op ->
    api h (OperationsGet op') = Some r -> r !! "done" = None.

(** Some get-operation request fails. *)
Definition faulty : Prop := exists h op, api h (OperationsGet op) = None.

End Parts.

(** What every round of a polling loop starts with. *)
Definition waiting : trace := [Print [PStr "Waiting 5s"]; Sleep 5].

(** The test the loop over [versions] does not make: the key is there. *)
Definition has_default_key (v : dict) : Prop := is_Some (v !! "isDefault").

(** ** Kinds of events *)

Definition no_model_delete (e : event) : Prop :=
  match e with Call (ModelsDelete _) _ => False | _ => True end.

Definition no_version_delete (e : event) : Prop :=
  match e with Call (VersionsDelete _) _ => False | _ => True end.

(** What the last loop of the cell can emit. *)
Definition model_phase_event (e : event) : Prop :=
  match e with Call (ModelsDelete _) _ | Print _ => True | _ => False end.

(** What a polling loop can emit. *)
Definition poll_phase_event (e : event) : Prop :=
  match e with Call (OperationsGet _) _ | Print _ | Sleep 5 => True | _ => False end.

Definition no_sleep (e : event) : Prop :=
  match e with Sleep _ => False | _ => True end.

(** Whatever the history and the outcome, every event emitted by [m]
    satisfies [P]. *)
Definition emits {A} (P : event -> Prop) (m : M A) : Prop :=
  forall h, Forall P (m h).2.

Create HintDb emits.

(** ** A mock of the management API *)

Definition version (name : string) : dict := {[ "name" := VStr name ]}.

Definition default_version (name : string) : dict :=
  {[ "name" := VStr name; "isDefault" := VBool true ]}.

Definition operation_of (name : value) : payload :=
  match name with
  | VStr n => PVal (VStr ("operations/delete_" +:+ n))
  | v => PVal v
  end.

(** How often [op] was polled in [h]. *)
Definition poll_count (op : payload) (h : trace) : nat :=
  length (filter (op =.) (polls h)).

(** A list answer; like the real API, it has no key at all for an empty
    list. *)
Definition list_response (key : string) (items : list dict) : response :=
  match items with
  | [] => ∅
  | _ :: _ => {[ key := PList items ]}
  end.

(** Every model has the given versions; a delete answers with the name
    of an operation, which reports ["done"] from its [delay]-th poll
    on and has no ["done"] key before. *)
Definition mock_api (models versions : list dict) (delay : nat)
    (h : trace) (rq : request) : option response :=
  match rq with
  | ModelsList _ => Some (list_response "models" models)
  | VersionsList _ => Some (list_response "versions" versions)
  | VersionsDelete n => Some {[ "name" := operation_of n ]}
  | ModelsDelete n => Some {[ "name" := operation_of n ]}
  | OperationsGet op =>
      if decide (delay <= poll_count op h)
      then Some {[ "name" := op; "done" := PVal (VBool true) ]}
      else Some {[ "name" := op ]}
  end.

(** A mock whose deletes answer with an error payload. *)
Definition mock_error_api (models versions : list dict)
    (h : trace) (rq : request) : option response :=
  match rq with
  | VersionsDelete n | ModelsDelete n =>
      Some {[ "name" := operation_of n; "error" := PVal (VStr "permission denied") ]}
  | _ => mock_api models versions 0 h rq
  end.

(** A mock whose operations never complete. *)
Definition mock_stuck_api (models versions : list dict)
    (h : trace) (rq : request) : option response :=
  match rq with
  | OperationsGet op => Some {[ "name" := op ]}
  | _ => mock_api models versions 0 h rq
  end.

(** A mock whose operations are under way: every get-operation answer
    carries ["done": false]. *)
Definition mock_unfinished_api (models versions : list dict)
    (h : trace) (rq : request) : option response :=
  match rq with
  | OperationsGet op => Some {[ "name" := op; "done" := PVal (VBool false) ]}
  | _ => mock_api models versions 0 h rq
  end.

(** A mock with handles that are [==] and not the same: the delete of
    the version named ["a"] answers with the handle [1], every other
    version delete with the handle [True]; the operation [1] never has
    the key ["done"], every other operation has it at once. *)
Definition mock_equal_handles_api (models versions : list dict)
    (h : trace) (rq : request) : option response :=
  match rq with
  | VersionsDelete (VStr "a") => Some {[ "name" := PVal (VInt 1) ]}
  | VersionsDelete _ => Some {[ "name" := PVal (VBool true) ]}
  | OperationsGet (PVal (VInt 1)) => Some {[ "name" := PVal (VInt 1) ]}
  | OperationsGet op => Some {[ "name" := op; "done" := PVal (VBool true) ]}
  | _ => mock_api models versions 0 h rq
  end.

(** ** What the two mutating loops leave and take *)

(** The loop over [versions] as a walk down the list: a version with
    the key is kept; one without it is taken, and the version after it
    is jumped over and kept. *)
Fixpoint kept_versions (l : list dict) : list dict :=
  match l with
  | [] => []
  | v :: rest =>
      if contains "isDefault" v then v :: kept_versions rest
      else match rest with
           | [] => []
           | w :: rest' => w :: kept_versions rest'
           end
  end.

Fixpoint taken_versions (l : list dict) : list dict :=
  match l with
  | [] => []
  | v :: rest =>
      if contains "isDefault" v then taken_versions rest
      else v :: match rest with
                | [] => []
                | _ :: rest' => taken_versions rest'
                end
  end.

(** No two versions without the key ["isDefault"] follow each other. *)
Fixpoint spaced_versions (l : list dict) : Prop :=
  match l with
  | [] => True
  | v :: rest =>
      (contains "isDefault" v = false ->
       match rest with
       | [] => True
       | w :: _ => contains "isDefault" w = true
       end)
      /\ spaced_versions rest
  end.

(** [kept] are the versions the walk has kept so far and [l] those
    still ahead of it: no version the walk takes is [==] to one it has
    kept before, so that [versions.remove] drops the very version the
    iterator is on. *)
Fixpoint distinct_walk (kept l : list dict) : Prop :=
  match l with
  | [] => True
  | v :: rest =>
      if contains "isDefault" v then distinct_walk (kept ++ [v]) rest
      else Forall (fun y => ¬ py_eq y v) kept
           /\ match rest with
              | [] => True
              | w :: rest' => distinct_walk (kept ++ [w]) rest'
              end
  end.

(** Items at positions 0, 2, 4, ... and at positions 1, 3, 5, ... *)
Fixpoint even_items {A} (l : list A) : list A :=
  match l with
  | [] => []
  | x :: rest => x :: match rest with
                      | [] => []
                      | _ :: rest' => even_items rest'
                      end
  end.

Fixpoint odd_items {A} (l : list A) : list A :=
  match l with
  | [] => []
  | _ :: rest => match rest with
                 | [] => []
                 | y :: rest' => y :: odd_items rest'
                 end
  end.

(** ** Online prediction: [predict_json] and the batch loop *)

(** The cell "Helper copied from the AI Platform console" and the cells
    after it that send the test rows in batches.  A row is one record of
    [to_dict('records')] and a score one number of a prediction; the
    code hands both on without looking inside, so their types are left
    open. *)
Section Prediction.

Context {row score : Type}.

(** [service.projects().predict(name=..., body={'instances': ...})] *)
Record predict_request : Type := PredictRequest {
  predict_name : string;
  predict_instances : list row
}.

(** What a key of a predict response holds: a list of predictions, each
    a dict from output names to lists of scores, or a scalar. *)
Inductive predict_field : Type :=
  | FValue (v : value)
  | FPredictions (ps : list (gmap string (list score))).

Inductive predict_exn : Type :=
  | RuntimeError (arg : predict_field)
  | Builtin (e : exn).

Inductive predict_result (A : Type) : Type :=
  | POk (a : A)
  | PRaise (e : predict_exn).
Arguments POk {A} a.
Arguments PRaise {A} e.

(** The prediction service: its answer to a request, given the requests
    sent before; [None] when [execute()] raises. *)
Variable predict_api :
  list predict_request -> predict_request -> option (gmap string predict_field).

(** Returns the outcome and the log of requests with this one added. *)
Definition predict_json (log : list predict_request) (project model : string)
    (instances : list row) (version : option string)
    : predict_result predict_field * list predict_request :=
  let name := "projects/" +:+ project +:+ "/models/" +:+ model in
  let name := match version with
              | Some v => name +:+ "/versions/" +:+ v
              | None => name
              end in
  let rq := PredictRequest name instances in
  (match predict_api log rq with
   | None => PRaise (Builtin HttpError)
   | Some response =>
       match response !! "error" with
       | Some err => PRaise (RuntimeError err)
       | None =>
           match response !! "predictions" with
           | Some predictions => POk predictions
           | None => PRaise (Builtin (KeyError "predictions"))
           end
       end
   end, log ++ [rq]).

Definition MODEL_NAME : string := "clf_add_to_cart".
Definition MODEL_VERSION : string := "v1".

(** [partial(predict_json, project=PROJECT_ID, model=MODEL_NAME,
    version=MODEL_VERSION)] *)
Definition get_predictions (project_id : string) (log : list predict_request)
    (instances : list row) : predict_result predict_field * list predict_request :=
  predict_json log project_id MODEL_NAME instances (Some MODEL_VERSION).

(** [p['dense_1'][0]] *)
Definition first_score (p : gmap string (list score)) : predict_result score :=
  match p !! "dense_1" with
  | None => PRaise (Builtin (KeyError "dense_1"))
  | Some l =>
      match l !! 0 with
      | Some x => POk x
      | None => PRaise (Builtin IndexError)
      end
  end.

(** [[p['dense_1'][0] for p in pred]] over a list of predictions *)
Fixpoint first_scores (ps : list (gmap string (list score)))
    : predict_result (list score) :=
  match ps with
  | [] => POk []
  | p :: ps' =>
      match first_score p with
      | PRaise e => PRaise e
      | POk x =>
          match first_scores ps' with
          | PRaise e => PRaise e
          | POk xs => POk (x :: xs)
          end
      end
  end.

(** The comprehension over whatever ["predictions"] held: the empty
    string iterates zero times, any other scalar fails. *)
Definition scores_of (pred : predict_field) : predict_result (list score) :=
  match pred with
  | FPredictions ps => first_scores ps
  | FValue (VStr "") => POk []
  | FValue _ => PRaise (Builtin TypeError)
  end.

(** [test_df.iloc[a:b, :]] with [0 <= a] and [0 <= b]: the rows from
    position [a] up to, not including, [b], as far as there are any. *)
Definition iloc_slice (a b : nat) (rows : list row) : list row :=
  take (b - a) (drop a rows).

(** The loop over the batch numbers.  [prediction_scores] is a global
    list that the loop extends batch by batch, so what was gathered
    stays when a batch raises: the result is the exception, if any, the
    scores and the log of requests. *)
Fixpoint predict_batches (batch_size : nat) (project_id : string) (rows : list row)
    (numbers : list nat) (prediction_scores : list score) (log : list predict_request)
    : option predict_exn * list score * list predict_request :=
  match numbers with
  | [] => (None, prediction_scores, log)
  | i :: numbers' =>
      let batch := iloc_slice (i * batch_size) ((i + 1) * batch_size) rows in
      match get_predictions project_id log batch with
      | (PRaise e, log') => (Some e, prediction_scores, log')
      | (POk pred, log') =>
          match scores_of pred with
          | PRaise e => (Some e, prediction_scores, log')
          | POk scores =>
              predict_batches batch_size project_id rows numbers'
                (prediction_scores ++ scores) log'
          end
      end
  end.

(** [num_batches = len(test_df)//BATCH_SIZE] and
    [for i in range(num_batches+1)], from an empty [prediction_scores]. *)
Definition predict_all (batch_size : nat) (project_id : string) (rows : list row)
    (log : list predict_request)
    : option predict_exn * list score * list predict_request :=
  let num_batches := length rows / batch_size in
  predict_batches batch_size project_id rows (seq 0 (num_batches + 1)) [] log.

(** The batches of a table, as the loop cuts them. *)
Definition batches (batch_size : nat) (rows : list row) : list (list row) :=
  (fun i => iloc_slice (i * batch_size) ((i + 1) * batch_size) rows)
    <$> seq 0 (length rows / batch_size + 1).

(** The name every request of the loop goes to. *)
Definition version_endpoint (project_id : string) : string :=
  ("projects/" +:+ project_id +:+ "/models/" +:+ MODEL_NAME)
  +:+ "/versions/" +:+ MODEL_VERSION.

(** The request the loop sends for batch number [i]. *)
Definition batch_request (batch_size : nat) (project_id : string)
    (rows : list row) (i : nat) : predict_request :=
  PredictRequest (version_endpoint project_id)
    (iloc_slice (i * batch_size) ((i + 1) * batch_size) rows).

(** A service that answers every request with one prediction per
    instance, each with a score under ["dense_1"], and no ["error"]. *)
Definition answers_each_instance : Prop :=
  forall log rq, exists r ps,
    predict_api log rq = Some r
    /\ r !! "error" = None
    /\ r !! "predictions" = Some (FPredictions ps)
    /\ length ps = length (predict_instances rq)
    /\ Forall (fun p : gmap string (list score) =>
                 exists x xs, p !! "dense_1" = Some (x :: xs)) ps.

End Prediction.

Arguments POk {score A} a.
Arguments PRaise {score A} e.
Arguments predict_field : clear implicits.
Arguments predict_exn : clear implicits.
Arguments predict_request : clear implicits.

(** The notebook's batch size. *)
Definition BATCH_SIZE : nat := 1024.

(** A prediction service that scores every instance with its own
    number, and one that answers with an error payload from its
    [n]-th request on. *)
Definition mock_predict (log : list (predict_request nat)) (rq : predict_request nat)
    : option (gmap string (predict_field nat)) :=
  Some {[ "predictions" :=
            FPredictions ((fun i : nat => {[ "dense_1" := [i] ]}) <$> predict_instances rq) ]}.

Definition mock_predict_error (n : nat) (log : list (predict_request nat))
    (rq : predict_request nat) : option (gmap string (predict_field nat)) :=
  if decide (n <= length log)
  then Some {[ "error" := FValue (VStr "Prediction failed") ]}
  else mock_predict log rq.

(** ** Rules for [spec] *)

Lemma spec_ret {A} (a : A) h (Q : A -> trace -> Prop) F : Q a [] -> spec (ret a) h Q F.
Proof. done. Qed.

Lemma spec_raise {A} x h (Q : A -> trace -> Prop) (F : option exn -> trace -> Prop) :
  F (Some x) [] -> spec (raise x) h Q F.
Proof. done. Qed.

Lemma spec_running {A} h (Q : A -> trace -> Prop) (F : option exn -> trace -> Prop) :
  F None [] -> spec running h Q F.
Proof. done. Qed.

Lemma spec_emit ev h (Q : unit -> trace -> Prop) F : Q tt [ev] -> spec (emit ev) h Q F.
Proof. done. Qed.

Lemma spec_bind {A B} (m : M A) (f : A -> M B) h Q F :
  spec m h (fun a e1 => spec (f a) (h ++ e1) (fun b e2 => Q b (e1 ++ e2))
                          (fun c e2 => F c (e1 ++ e2))) F ->
  spec (bind m f) h Q F.
Proof.
  unfold spec, bind. destruct (m h) as [[a|x|] e1]; try done.
  destruct (f a (h ++ e1)) as [[b|y|] e2]; done.
Qed.

Lemma spec_mono {A} (m : M A) h (Q Q' : A -> trace -> Prop) (F F' : option exn -> trace -> Prop) :
  spec m h Q F ->
  (forall a e, Q a e -> Q' a e) -> (forall c e, F c e -> F' c e) ->
  spec m h Q' F'.
Proof.
  unfold spec. destruct (m h) as [[a|x|] e]; eauto.
Qed.

Lemma spec_of_run {A} (m : M A) h Q F :
  (forall o e, m h = (o, e) ->
     match o with Ret a => Q a e | Raise x => F (Some x) e | Running => F None e end) ->
  spec m h Q F.
Proof.
  intros H. unfold spec. specialize (H (m h).1 (m h).2).
  destruct (m h) as [[a|x|] e]; by apply H.
Qed.

Lemma run_of_spec {A} (m : M A) h Q F o e :
  spec m h Q F -> m h = (o, e) ->
  match o with Ret a => Q a e | Raise x => F (Some x) e | Running => F None e end.
Proof. unfold spec. intros H E. rewrite E in H. by destruct o. Qed.

Lemma spec_getitem {V} k (d : gmap string V) h Q F :
  (forall v, d !! k = Some v -> Q v []) ->
  (d !! k = None -> F (Some (KeyError k)) []) ->
  spec (getitem k d) h Q F.
Proof.
  intros HQ HF. unfold getitem. destruct (d !! k); [apply spec_ret | apply spec_raise]; auto.
Qed.

Lemma spec_execute api rq h Q F :
  (forall r, api h rq = Some r -> Q r [Call rq (Some r)]) ->
  (api h rq = None -> F (Some HttpError) [Call rq None]) ->
  spec (execute api rq) h Q F.
Proof.
  intros HQ HF. unfold spec, execute. destruct (api h rq); auto.
Qed.

(** Loop rule for [for_each]: [I s pre] holds of the state and of what
    the loop has emitted so far. *)
Lemma spec_for_each {A St} (body : A -> St -> M St)
    (I : St -> trace -> Prop) (F : option exn -> trace -> Prop) l :
  (forall x s h pre, x ∈ l -> I s pre ->
     spec (body x s) h (fun s' e => I s' (pre ++ e)) (fun c e => F c (pre ++ e))) ->
  forall s h pre, I s pre ->
    spec (for_each body l s) h (fun s' e => I s' (pre ++ e)) (fun c e => F c (pre ++ e)).
Proof.
  induction l as [|x l IH]; intros Hb s h pre HI; simpl.
  - apply spec_ret. by rewrite app_nil_r.
  - apply spec_bind.
    eapply spec_mono; [apply (Hb x s h pre); [left | done] | | done].
    intros s' e1 HI'. simpl.
    eapply spec_mono; [apply (IH (fun y s0 h0 pre0 Hy => Hb y s0 h0 pre0 (list_elem_of_further _ _ _ Hy)) s' (h ++ e1) (pre ++ e1) HI') | |];
      intros ? e2; by rewrite app_assoc.
Qed.

(** Loop rule for [for_in]; the item handed to the body is in the list
    at that moment.  A body that never grows the list is never cut short
    by the step bound when the bound covers the items still ahead. *)
Lemma spec_for_in {A St} (items : St -> list A) (body : A -> St -> M St)
    (I : St -> trace -> Prop) (F : option exn -> trace -> Prop) :
  (forall x s h pre, x ∈ items s -> I s pre ->
     spec (body x s) h
       (fun s' e => I s' (pre ++ e) /\ length (items s') <= length (items s))
       (fun c e => F c (pre ++ e))) ->
  forall n i s h pre, length (items s) <= n + i -> I s pre ->
    spec (for_in items body n i s) h
      (fun s' e => I s' (pre ++ e) /\ length (items s') <= length (items s))
      (fun c e => F c (pre ++ e)).
Proof.
  intros Hb. induction n as [|n IH]; intros i s h pre Hlen HI; simpl.
  - destruct (items s !! i) eqn:E.
    + apply lookup_lt_Some in E. lia.
    + apply spec_ret. by rewrite app_nil_r.
  - destruct (items s !! i) as [x|] eqn:E.
    + apply spec_bind.
      eapply spec_mono; [apply (Hb x s h pre); [by eapply list_elem_of_lookup_2 | done] | | done].
      intros s' e1 [HI' Hle]. simpl.
      eapply spec_mono; [apply (IH (S i) s' (h ++ e1) (pre ++ e1)); [lia | done] | |].
      * intros s'' e2 [? ?]. rewrite app_assoc. split; [done | lia].
      * intros ? e2. by rewrite app_assoc.
    + apply spec_ret. by rewrite app_nil_r.
Qed.

(** ** Sequences, run by run *)

Lemma bind_run {A B} (m : M A) (f : A -> M B) h o e :
  bind m f h = (o, e) ->
  (exists a e1 e2, m h = (Ret a, e1) /\ f a (h ++ e1) = (o, e2) /\ e = e1 ++ e2)
  \/ (exists x, m h = (Raise x, e) /\ o = Raise x)
  \/ (m h = (Running, e) /\ o = Running).
Proof.
  unfold bind. destruct (m h) as [[a|x|] e1].
  - destruct (f a (h ++ e1)) as [o' e2] eqn:Ef. intros [= <- <-]. left. by exists a, e1, e2.
  - intros [= <- <-]. right. left. by exists x.
  - intros [= <- <-]. right. by right.
Qed.

Lemma bind_run_Ret {A B} (m : M A) (f : A -> M B) h b e :
  bind m f h = (Ret b, e) ->
  exists a e1 e2, m h = (Ret a, e1) /\ f a (h ++ e1) = (Ret b, e2) /\ e = e1 ++ e2.
Proof.
  intros [H|[(x & _ & [=])|[_ [=]]]]%bind_run. done.
Qed.

Lemma emits_run {A} P (m : M A) h o e : emits P m -> m h = (o, e) -> Forall P e.
Proof. intros H E. specialize (H h). by rewrite E in H. Qed.

Lemma bind_Ret {A B} (m : M A) (f : A -> M B) h a e1 :
  m h = (Ret a, e1) ->
  bind m f h = (let '(o, e2) := f a (h ++ e1) in (o, e1 ++ e2)).
Proof. unfold bind. by intros ->. Qed.

Lemma bind_Raise {A B} (m : M A) (f : A -> M B) h x e1 :
  m h = (Raise x, e1) -> bind m f h = (Raise x, e1).
Proof. unfold bind. by intros ->. Qed.

Lemma bind_Running {A B} (m : M A) (f : A -> M B) h e1 :
  m h = (Running, e1) -> bind m f h = (Running, e1).
Proof. unfold bind. by intros ->. Qed.

Lemma bind_ret_l {A B} (a : A) (f : A -> M B) h : bind (ret a) f h = f a h.
Proof. unfold bind, ret. rewrite app_nil_r. by destruct (f a h). Qed.

Lemma bind_emit {B} ev (f : unit -> M B) h :
  bind (emit ev) f h = (let '(o, e) := f tt (h ++ [ev]) in (o, ev :: e)).
Proof. done. Qed.

Lemma bind_assoc {A B C} (m : M A) (f : A -> M B) (g : B -> M C) h :
  bind (bind m f) g h = bind m (fun a => bind (f a) g) h.
Proof.
  unfold bind. destruct (m h) as [[a|x|] e1]; try done.
  destruct (f a (h ++ e1)) as [[b|y|] e2]; try done.
  rewrite <- (app_assoc h e1 e2). destruct (g b (h ++ e1 ++ e2)) as [o e3].
  by rewrite app_assoc.
Qed.

Lemma bind_getitem {V B} k (d : gmap string V) (f : V -> M B) h :
  bind (getitem k d) f h =
    match d !! k with
    | Some v => f v h
    | None => (Raise (KeyError k), [])
    end.
Proof. unfold getitem. destruct (d !! k); [apply bind_ret_l | done]. Qed.

Lemma bind_execute {B} api rq (f : response -> M B) h :
  bind (execute api rq) f h =
    match api h rq with
    | Some r => let '(o, e) := f r (h ++ [Call rq (Some r)]) in (o, Call rq (Some r) :: e)
    | None => (Raise HttpError, [Call rq None])
    end.
Proof. unfold bind, execute. by destruct (api h rq). Qed.

Lemma for_each_raise {A St} (body : A -> St -> M St) l1 x l2 s h s1 e1 ex e2 :
  for_each body l1 s h = (Ret s1, e1) ->
  body x s1 (h ++ e1) = (Raise ex, e2) ->
  for_each body (l1 ++ x :: l2) s h = (Raise ex, e1 ++ e2).
Proof.
  revert s h e1. induction l1 as [|y l1 IH]; intros s h e1; simpl.
  - intros [= -> <-]. rewrite app_nil_r. intros Hx. by rewrite (bind_Raise _ _ _ _ _ Hx).
  - intros (s' & ea & eb & Hy & Hrest & ->)%bind_run_Ret Hx.
    rewrite (bind_Ret _ _ _ _ _ Hy).
    rewrite app_assoc in Hx. rewrite (IH _ _ _ Hrest Hx). by rewrite app_assoc.
Qed.

(** ** The helper functions, run by run *)

Section Runs.

Variable api : trace -> request -> option response.

Lemma is_version_deleted_run operation h :
  let p := Print [PStr "Checking status for operation: "; PPayload operation] in
  is_version_deleted api operation h =
    match api (h ++ [p]) (OperationsGet operation) with
    | Some r => (Ret (contains "done" r),
                 [p; Call (OperationsGet operation) (Some r); Print [PResponse r]])
    | None => (Raise HttpError, [p; Call (OperationsGet operation) None])
    end.
Proof.
  unfold is_version_deleted, bind, print, emit, execute. simpl.
  destruct (api _ _) as [r|]; [|done]. simpl. by destruct (contains "done" r).
Qed.

Lemma delete_version_run (v : dict) h :
  delete_version api v h =
    match v !! "name" with
    | None => (Raise (KeyError "name"), [])
    | Some n =>
        let p := Print [PStr "Deleting version: "; PValue n] in
        match api (h ++ [p]) (VersionsDelete n) with
        | None => (Raise HttpError, [p; Call (VersionsDelete n) None])
        | Some r =>
            (if contains "error" r then Raise (NameError "error")
             else match r !! "name" with
                  | Some op => Ret op
                  | None => Raise (KeyError "name")
                  end,
             [p; Call (VersionsDelete n) (Some r)])
        end
    end.
Proof.
  unfold delete_version, bind, getitem, print, emit, execute, raise, ret.
  destruct (v !! "name") as [n|]; [|done]. simpl. rewrite app_nil_r.
  destruct (api _ _) as [r|]; [|done]. simpl.
  destruct (contains "error" r); [done|].
  by destruct (r !! "name").
Qed.

Lemma delete_model_run (m : dict) h :
  delete_model api m h =
    match m !! "name" with
    | None => (Raise (KeyError "name"), [])
    | Some n =>
        let p := Print [PStr "Deleting model: "; PValue n] in
        match api (h ++ [p]) (ModelsDelete n) with
        | None => (Raise HttpError, [p; Call (ModelsDelete n) None])
        | Some r =>
            (if contains "error" r then Raise (NameError "error") else Ret tt,
             [p; Call (ModelsDelete n) (Some r)])
        end
    end.
Proof.
  unfold delete_model, bind, getitem, print, emit, execute, raise, ret.
  destruct (m !! "name") as [n|]; [|done]. simpl. rewrite app_nil_r.
  destruct (api _ _) as [r|]; [|done]. simpl.
  by destruct (contains "error" r).
Qed.

End Runs.

Lemma contains_spec {V} k (d : gmap string V) : contains k d = true <-> is_Some (d !! k).
Proof. unfold contains. by rewrite bool_decide_eq_true. Qed.

Lemma contains_false {V} k (d : gmap string V) : contains k d = false <-> d !! k = None.
Proof. unfold contains. by rewrite bool_decide_eq_false, eq_None_not_Some. Qed.

(** ** [list.remove] *)

Lemma py_eq_refl {A} `{PyNorm A} (x : A) : py_eq x x.
Proof. done. Qed.

Lemma py_eq_sym {A} `{PyNorm A} (x y : A) : py_eq x y -> py_eq y x.
Proof. unfold py_eq. congruence. Qed.

Lemma py_eq_trans {A} `{PyNorm A} (x y z : A) : py_eq x y -> py_eq y z -> py_eq x z.
Proof. unfold py_eq. congruence. Qed.

(** Dicts that are [==] have the same keys. *)
Lemma py_eq_lookup (v w : dict) k : py_eq v w -> is_Some (v !! k) -> is_Some (w !! k).
Proof.
  unfold py_eq, py_norm, dict_norm. intros Heq Hv.
  apply (f_equal (lookup k)) in Heq. rewrite !lookup_fmap in Heq.
  destruct Hv as [a Hv]. rewrite Hv in Heq. simpl in Heq.
  destruct (w !! k); [by eexists | done].
Qed.

Section RemoveFirst.
Context {A : Type} `{EqDecision A, PyNorm A}.
Implicit Types (x y : A) (l : list A).

Lemma remove_first_length x l l' :
  remove_first x l = Some l' -> length l = S (length l').
Proof.
  revert l'. induction l as [|y l IH]; intros l'; simpl; [done|].
  case_decide; [by intros [= ->]|].
  destruct (remove_first x l) as [l0|]; simpl; [|done].
  intros [= <-]. simpl. f_equal. by apply IH.
Qed.

Lemma remove_first_elem x l l' y :
  remove_first x l = Some l' -> y ∈ l -> py_eq y x \/ y ∈ l'.
Proof.
  revert l'. induction l as [|z l IH]; intros l'; simpl; [done|].
  case_decide as Hz.
  - intros [= ->]. rewrite elem_of_cons. intros [->|?]; auto.
  - destruct (remove_first x l) as [l0|]; simpl; [|done].
    intros [= <-]. rewrite !elem_of_cons.
    intros [->|Hy]; [auto | destruct (IH l0 eq_refl Hy); auto].
Qed.

Lemma remove_first_sub x l l' y :
  remove_first x l = Some l' -> y ∈ l' -> y ∈ l.
Proof.
  revert l'. induction l as [|z l IH]; intros l'; simpl; [done|].
  case_decide as Hz.
  - intros [= ->]. apply list_elem_of_further.
  - destruct (remove_first x l) as [l0|]; simpl; [|done].
    intros [= <-]. rewrite !elem_of_cons.
    intros [->|Hy]; [auto | right; by apply (IH l0)].
Qed.

Lemma remove_first_is_Some x l : x ∈ l -> is_Some (remove_first x l).
Proof.
  induction l as [|z l IH]; simpl; [by intros ?%elem_of_nil|].
  case_decide as Hz; [by eauto|]. rewrite elem_of_cons. intros [->|Hx]; [done|].
  destruct (IH Hx) as [l0 ->]. by eexists.
Qed.

(** Removing an item that fails [P] leaves the items that pass it, when
    [P] does not tell [==] items apart. *)
Lemma remove_first_filter (P : A -> Prop) `{!forall x, Decision (P x)} x l l' :
  (forall y z, py_eq y z -> P y -> P z) ->
  remove_first x l = Some l' -> ¬ P x -> filter P l' = filter P l.
Proof.
  intros HP Hr Hx. revert l' Hr. induction l as [|z l IH]; intros l'; simpl; [done|].
  case_decide as Hz.
  - intros [= ->]. rewrite filter_cons_False; [done|]. intros Pz. by apply Hx, (HP z).
  - destruct (remove_first x l) as [l0|]; simpl; [|done].
    intros [= <-]. rewrite !filter_cons. by rewrite (IH l0).
Qed.
End RemoveFirst.

(** ** Traces *)

Lemma version_deletes_app t1 t2 :
  version_deletes (t1 ++ t2) = version_deletes t1 ++ version_deletes t2.
Proof. apply omap_app. Qed.

Lemma model_deletes_app t1 t2 :
  model_deletes (t1 ++ t2) = model_deletes t1 ++ model_deletes t2.
Proof. apply omap_app. Qed.

Lemma polls_app t1 t2 : polls (t1 ++ t2) = polls t1 ++ polls t2.
Proof. apply omap_app. Qed.

Lemma sleeps_app t1 t2 : sleeps (t1 ++ t2) = sleeps t1 ++ sleeps t2.
Proof. apply omap_app. Qed.

Lemma requests_app t1 t2 : requests (t1 ++ t2) = requests t1 ++ requests t2.
Proof. apply omap_app. Qed.

Lemma confirmed_app_l op t1 t2 : confirmed op t1 -> confirmed op (t1 ++ t2).
Proof.
  intros (op' & r & Heq & Hin & Hd). exists op', r. split_and!; [done| |done].
  apply elem_of_app. by left.
Qed.

Lemma confirmed_app_r op t1 t2 : confirmed op t2 -> confirmed op (t1 ++ t2).
Proof.
  intros (op' & r & Heq & Hin & Hd). exists op', r. split_and!; [done| |done].
  apply elem_of_app. by right.
Qed.

Lemma tracked_quiet ops t : version_deletes t = [] -> tracked ops t.
Proof.
  induction t as [|e t IH]; simpl; [done|].
  destruct e as [[]| |]; simpl; try done; intros H; split; auto.
Qed.

Lemma tracked_app ops1 ops2 t1 t2 :
  tracked ops1 t1 -> tracked ops2 t2 ->
  (forall op, op ∈ ops1 -> confirmed op t2 \/ op ∈ ops2) ->
  tracked ops2 (t1 ++ t2).
Proof.
  intros H1 H2 Hops. induction t1 as [|e t1 IH]; simpl; [done|].
  destruct H1 as [He H1]. split; [|by apply IH].
  destruct e as [[]| |]; try done.
  destruct He as (r & op & -> & Hn & [Hc|Hin]); exists r, op; split_and!; try done.
  - left. by apply confirmed_app_l.
  - destruct (Hops op Hin); [left; by apply confirmed_app_r | by right].
Qed.

Lemma tracked_weaken ops ops' t :
  tracked ops t -> (forall op, op ∈ ops -> op ∈ ops') -> tracked ops' t.
Proof.
  intros H Hsub. rewrite <- (app_nil_r t).
  apply (tracked_app ops); [done..|]. intros op Hin. right. auto.
Qed.

(** ** Events a computation can emit *)

Section Emits.
Context (P : event -> Prop).

Lemma emits_ret {A} (a : A) : emits P (ret a).
Proof. intros h. constructor. Qed.

Lemma emits_raise {A} x : emits P (@raise A x).
Proof. intros h. constructor. Qed.

Lemma emits_running {A} : emits P (@running A).
Proof. intros h. constructor. Qed.

Lemma emits_emit ev : P ev -> emits P (emit ev).
Proof. intros H h. by repeat constructor. Qed.

Lemma emits_bind {A B} (m : M A) (f : A -> M B) :
  emits P m -> (forall a, emits P (f a)) -> emits P (bind m f).
Proof.
  intros Hm Hf h. unfold bind. specialize (Hm h).
  destruct (m h) as [[a|x|] e1]; simpl in *; try done.
  specialize (Hf a (h ++ e1)). destruct (f a (h ++ e1)) as [o e2]. simpl in *.
  by apply Forall_app.
Qed.

Lemma emits_if {A} (b : bool) (m1 m2 : M A) :
  emits P m1 -> emits P m2 -> emits P (if b then m1 else m2).
Proof. by destruct b. Qed.

Lemma emits_getitem {V} k (d : gmap string V) : emits P (getitem k d).
Proof. unfold getitem. destruct (d !! k); [apply emits_ret | apply emits_raise]. Qed.

Lemma emits_list_remove {A} `{EqDecision A, PyNorm A} (x : A) l : emits P (list_remove x l).
Proof. unfold list_remove. destruct (remove_first x l); [apply emits_ret | apply emits_raise]. Qed.

Lemma emits_first_item {A} (l : list A) : emits P (first_item l).
Proof. unfold first_item. destruct (l !! 0); [apply emits_ret | apply emits_raise]. Qed.

Lemma emits_execute api rq : (forall rs, P (Call rq rs)) -> emits P (execute api rq).
Proof.
  intros H h. unfold execute. destruct (api h rq); simpl; by repeat constructor.
Qed.

Lemma emits_for_each {A St} (body : A -> St -> M St) l s :
  (forall x s, emits P (body x s)) -> emits P (for_each body l s).
Proof.
  intros Hb. revert s. induction l as [|x l IH]; intros s; simpl.
  - apply emits_ret.
  - apply emits_bind; auto.
Qed.

Lemma emits_for_in {A St} (items : St -> list A) (body : A -> St -> M St) n i s :
  (forall x s, emits P (body x s)) -> emits P (for_in items body n i s).
Proof.
  intros Hb. revert i s. induction n as [|n IH]; intros i s; simpl;
    destruct (items s !! i); try apply emits_ret; [apply emits_running|].
  apply emits_bind; auto.
Qed.

Lemma emits_models_seq p : emits P (models_seq p).
Proof.
  destruct p as [[| | |[|]]|]; simpl; try apply emits_ret; apply emits_raise.
Qed.

Lemma emits_versions_seq p : emits P (versions_seq p).
Proof.
  destruct p as [[| | |[|]]|]; simpl; try apply emits_ret; apply emits_raise.
Qed.
End Emits.

#[global] Hint Resolve emits_ret emits_raise emits_running emits_emit emits_bind
  emits_if emits_getitem emits_list_remove emits_first_item emits_execute
  emits_for_each emits_for_in emits_models_seq emits_versions_seq : emits.

(** ** The loop bodies, run by run *)

Section Bodies.

Variable api : trace -> request -> option response.

Lemma poll_body_run op (pending : list payload) h :
  let p := Print [PStr "Checking status for operation: "; PPayload op] in
  poll_body api op pending h =
    match api (h ++ [p]) (OperationsGet op) with
    | None => (Raise HttpError, [p; Call (OperationsGet op) None])
    | Some r =>
        let checked := [p; Call (OperationsGet op) (Some r); Print [PResponse r]] in
        if contains "done" r then
          (match remove_first op pending with
           | Some pending' => Ret pending'
           | None => Raise ValueError
           end,
           checked ++ [Print [PStr "Deletion completed: "; PPayload op]])
        else (Ret pending, checked)
    end.
Proof.
  unfold poll_body, bind. rewrite is_version_deleted_run.
  destruct (api _ _) as [r|]; [|done].
  destruct (contains "done" r); [|done].
  unfold print, emit, list_remove. simpl.
  by destruct (remove_first op pending).
Qed.

Lemma non_default_body_run (v : dict) (s : list dict * list payload) h :
  non_default_body api v s h =
    if contains "isDefault" v then (Ret s, [])
    else match remove_first v s.1 with
         | None => (Raise ValueError, [])
         | Some versions' =>
             match delete_version api v h with
             | (Ret op, e) => (Ret (versions', s.2 ++ [op]), e)
             | (Raise x, e) => (Raise x, e)
             | (Running, e) => (Running, e)
             end
         end.
Proof.
  unfold non_default_body. destruct (contains "isDefault" v); [done|]. simpl.
  unfold bind, list_remove. destruct (remove_first v s.1) as [vs|]; [|done].
  simpl. rewrite app_nil_r.
  destruct (delete_version api v h) as [[op|x|] e]; simpl; by rewrite ?app_nil_r.
Qed.

End Bodies.

(** ** C2: the poller and the ["done"] key *)

(** C2, as stated, fails: a get-operation response that carries
    ["done": false] does not report completion, yet [is_version_deleted]
    returns [True] for it. *)
Lemma is_version_deleted_done_false :
  let r : response := {[ "name" := PVal (VStr "operations/op1"); "done" := PVal (VBool false) ]} in
  (is_version_deleted (fun _ _ => Some r) (PVal (VStr "operations/op1")) []).1 = Ret true
  /\ ¬ reports_completion r.
Proof. split; [by vm_compute | by vm_compute]. Qed.

(** C2, amended: [is_version_deleted] sends one get-operation request
    and returns [True] exactly when the response contains the key
    ["done"], whatever its value.  For a response that either omits
    ["done"] or carries ["done": true] this is exactly when the response
    reports completion.  When the request fails, so does the call. *)
Theorem is_version_deleted_iff_done_key api operation h :
  let p := Print [PStr "Checking status for operation: "; PPayload operation] in
  (forall r,
      api (h ++ [p]) (OperationsGet operation) = Some r ->
      exists b,
        is_version_deleted api operation h =
          (Ret b, [p; Call (OperationsGet operation) (Some r); Print [PResponse r]])
        /\ (b = true <-> is_Some (r !! "done"))
        /\ (r !! "done" = None \/ reports_completion r ->
            (b = true <-> reports_completion r)))
  /\ (api (h ++ [p]) (OperationsGet operation) = None ->
      is_version_deleted api operation h =
        (Raise HttpError, [p; Call (OperationsGet operation) None])).
Proof.
  intros p. split.
  - intros r Hr. rewrite is_version_deleted_run. fold p. rewrite Hr.
    exists (contains "done" r). split_and!; [done|apply contains_spec|].
    rewrite contains_spec. unfold reports_completion.
    intros [Hn| ->]; [rewrite Hn|]; split; try done; by intros [? ?].
  - intros Hr. rewrite is_version_deleted_run. fold p. by rewrite Hr.
Qed.

Lemma is_version_deleted_iff_done_key_witness :
  let op := PVal (VStr "operations/delete_v1") in
  let pending : response := {[ "name" := op ]} in
  let finished : response := {[ "name" := op; "done" := PVal (VBool true) ]} in
  (exists b, (is_version_deleted (mock_api [] [] 1) op []).1 = Ret b
             /\ (b = true <-> reports_completion pending))
  /\ (exists b, (is_version_deleted (mock_api [] [] 0) op []).1 = Ret b
                /\ (b = true <-> reports_completion finished)).
Proof.
  intros op pending finished. split.
  - destruct (is_version_deleted_iff_done_key (mock_api [] [] 1) op []) as [H _].
    destruct (H pending) as (b & -> & _ & Hb); [vm_compute; reflexivity|].
    exists b. split; [reflexivity|]. apply Hb. left. vm_compute. reflexivity.
  - destruct (is_version_deleted_iff_done_key (mock_api [] [] 0) op []) as [H _].
    destruct (H finished) as (b & -> & _ & Hb); [vm_compute; reflexivity|].
    exists b. split; [reflexivity|]. apply Hb. right. vm_compute. reflexivity.
Defined.

(** ** C3: error payloads *)

(** C3: with an ["error"] key in the delete response, both
    [delete_version] and [delete_model] stop with [NameError] at
    [print(error)]: nothing is printed after the request, and the sweep
    stops with them. *)
Theorem delete_error_payload_raises_name_error :
  let api := mock_error_api [version "clf_add_to_cart"] [default_version "v1"] in
  let r n : response :=
    {[ "name" := PVal (VStr ("operations/delete_" +:+ n));
       "error" := PVal (VStr "permission denied") ]} in
  delete_version api (default_version "v1") [] =
    (Raise (NameError "error"),
     [Print [PStr "Deleting version: "; PValue (VStr "v1")];
      Call (VersionsDelete (VStr "v1")) (Some (r "v1"))])
  /\ delete_model api (version "clf_add_to_cart") [] =
    (Raise (NameError "error"),
     [Print [PStr "Deleting model: "; PValue (VStr "clf_add_to_cart")];
      Call (ModelsDelete (VStr "clf_add_to_cart")) (Some (r "clf_add_to_cart"))])
  /\ (sweep api 3 "p" []).1 = Raise (NameError "error").
Proof. split_and!; by vm_compute. Qed.

(** ** C6: one polling round *)

(** C6: both pending operations report completion, yet the round checks
    and removes only the first: removing it moves the second into the
    slot the iterator has already passed. *)
Theorem poll_round_skips_after_removal :
  let a := PVal (VStr "operations/delete_v1") in
  let b := PVal (VStr "operations/delete_v2") in
  let run := poll_round (mock_api [] [] 0) [a; b] [] in
  run.1 = Ret [b] /\ polls run.2 = [a].
Proof. split; by vm_compute. Qed.

(** ** C1: versions of one model *)

(** C1: a model with three versions, the last one the default.  The
    sweep sends two version deletes, not three: removing ["v1"] from the
    list makes the iterator skip ["v2"], which is then deleted as
    [versions[0]] in place of the default, and ["v3"] is never deleted. *)
Theorem sweep_three_versions_two_deletes :
  let api := mock_api [version "clf_add_to_cart"]
               [version "v1"; version "v2"; default_version "v3"] 1 in
  let run := sweep api 5 "p" [] in
  run.1 = Ret tt /\ version_deletes run.2 = [VStr "v1"; VStr "v2"].
Proof. split; by vm_compute. Qed.

(** ** What the kinds of events exclude *)

Lemma no_model_delete_nil t : Forall no_model_delete t -> model_deletes t = [].
Proof.
  induction 1 as [|e t He _ IH]; [done|]. simpl.
  destruct e as [[]| |]; simpl in *; done.
Qed.

Lemma no_version_delete_nil t : Forall no_version_delete t -> version_deletes t = [].
Proof.
  induction 1 as [|e t He _ IH]; [done|]. simpl.
  destruct e as [[]| |]; simpl in *; done.
Qed.

Lemma model_phase_quiet t :
  Forall model_phase_event t -> version_deletes t = [] /\ polls t = [] /\ sleeps t = [].
Proof.
  induction 1 as [|e t He _ IH]; [done|]. simpl.
  destruct e as [[]| |]; simpl in *; done.
Qed.

Lemma poll_phase_quiet t :
  Forall poll_phase_event t ->
  version_deletes t = [] /\ model_deletes t = [] /\ Forall (fun s => s = 5%Z) (sleeps t).
Proof.
  induction 1 as [|e t He _ IH]; [done|]. simpl.
  destruct IH as (? & ? & ?).
  destruct e as [[]|s|]; simpl in *; try done.
  split_and!; try done. constructor; [|done].
  by destruct s as [|[[[]|[]|]|[]|]|].
Qed.

Section EmitsSweep.

Variable api : trace -> request -> option response.
Variable P : event -> Prop.
Hypothesis P_print : forall args, P (Print args).

Lemma emits_print args : emits P (print args).
Proof. apply emits_emit, P_print. Qed.

#[local] Hint Resolve emits_print : emits.

Lemma emits_delete_version v :
  (forall n rs, P (Call (VersionsDelete n) rs)) -> emits P (delete_version api v).
Proof using P_print.
  intros H. unfold delete_version.
  eauto 10 with emits.
Qed.

Lemma emits_delete_model m :
  (forall n rs, P (Call (ModelsDelete n) rs)) -> emits P (delete_model api m).
Proof using P_print.
  intros H. unfold delete_model.
  eauto 10 with emits.
Qed.

Lemma emits_delete_models ms :
  (forall n rs, P (Call (ModelsDelete n) rs)) -> emits P (delete_models api ms).
Proof using P_print.
  intros H. apply emits_for_each. intros m _. by apply emits_delete_model.
Qed.

Section Polling.
Hypothesis P_get : forall op rs, P (Call (OperationsGet op) rs).
Hypothesis P_sleep : P (Sleep 5).

Lemma emits_is_version_deleted op : emits P (is_version_deleted api op).
Proof using P_print P_get.
  unfold is_version_deleted.
  eauto 10 with emits.
Qed.

Lemma emits_poll_round pending : emits P (poll_round api pending).
Proof using P_print P_get.
  apply emits_for_in. intros op l. unfold poll_body.
  apply emits_bind; [apply emits_is_version_deleted|]. intros [|].
  - apply emits_bind; [apply emits_print | intros _; apply emits_list_remove].
  - apply emits_ret.
Qed.

Lemma emits_wait_until_deleted fuel pending :
  emits P (wait_until_deleted api fuel pending).
Proof using P_print P_get P_sleep.
  revert pending. induction fuel as [|fuel IH]; intros [|op pending]; simpl;
    try apply emits_ret; try apply emits_running.
  apply emits_bind; [apply emits_print | intros _].
  apply emits_bind; [by apply emits_emit | intros _].
  apply emits_bind; [apply emits_poll_round | intros l; apply IH].
Qed.

Lemma emits_sweep_model fuel m dvd :
  (forall n rs, P (Call (VersionsList n) rs)) ->
  (forall n rs, P (Call (VersionsDelete n) rs)) ->
  emits P (sweep_model api fuel m dvd).
Proof using P_print P_get P_sleep.
  intros HL HD. unfold sweep_model.
  apply emits_bind; [apply emits_getitem | intros n].
  apply emits_bind; [apply emits_print | intros _].
  apply emits_bind; [|intros vs].
  { apply emits_bind; [by apply emits_execute | intros r; apply emits_getitem]. }
  apply emits_bind; [apply emits_versions_seq | intros versions].
  apply emits_bind; [|intros s].
  { apply emits_for_in. intros v s. unfold non_default_body.
    apply emits_if; [|apply emits_ret].
    apply emits_bind; [apply emits_list_remove | intros l].
    apply emits_bind; [by apply emits_delete_version | intros op; apply emits_ret]. }
  apply emits_bind; [apply emits_wait_until_deleted | intros _].
  apply emits_bind; [apply emits_first_item | intros v0].
  apply emits_bind; [by apply emits_delete_version | intros op; apply emits_ret].
Qed.
End Polling.

End EmitsSweep.

(** ** Version deletes are followed up *)

Section Tracking.

Variable api : trace -> request -> option response.

(** A polling round keeps or confirms each pending operation. *)
Lemma poll_round_confirms pending h l e :
  poll_round api pending h = (Ret l, e) ->
  forall op, op ∈ pending -> op ∈ l \/ confirmed op e.
Proof.
  intros Hrun.
  pose proof (spec_for_in id (poll_body api)
    (fun l pre => forall op, op ∈ pending -> op ∈ l \/ confirmed op pre)
    (fun _ _ => True)) as Hrule.
  eapply run_of_spec in Hrun;
    [ | apply (Hrule) with (pre := []); [ | simpl; lia | by left ] ].
  - simpl in Hrun. tauto.
  - clear. intros x s h pre Hx HI. unfold spec. rewrite poll_body_run. simpl.
    destruct (api _ _) as [r|]; [|done].
    destruct (contains "done" r) eqn:Hd.
    + destruct (remove_first x s) as [s'|] eqn:Hrm; [|done]. split.
      * intros op Hop. destruct (HI op Hop) as [Hin|Hc]; [|right; by apply confirmed_app_l].
        destruct (remove_first_elem _ _ _ _ Hrm Hin) as [Heq|]; [|by left].
        right. apply confirmed_app_r. exists x, r.
        split_and!; [by apply py_eq_sym | | by apply contains_spec].
        simpl. apply list_elem_of_further, list_elem_of_here.
      * apply remove_first_length in Hrm. unfold id. lia.
    + split; [|done]. intros op Hop.
      destruct (HI op Hop); [by left | right; by apply confirmed_app_l].
Qed.

(** A polling loop that ends has confirmed every operation it was
    given. *)
Lemma wait_until_deleted_confirms fuel pending h e :
  wait_until_deleted api fuel pending h = (Ret tt, e) ->
  forall op, op ∈ pending -> confirmed op e.
Proof.
  revert pending h e. induction fuel as [|fuel IH]; intros [|p pending] h e; simpl;
    try (intros _ op Hop; by apply elem_of_nil in Hop); try done.
  intros (_ & e1 & e2 & _ & Hrun & ->)%bind_run_Ret.
  apply bind_run_Ret in Hrun as (_ & e3 & e4 & _ & Hrun & ->).
  apply bind_run_Ret in Hrun as (l & e5 & e6 & Hround & Hrun & ->).
  intros op Hop. do 2 apply confirmed_app_r.
  destruct (poll_round_confirms _ _ _ _ Hround op Hop) as [Hin|Hc].
  - apply confirmed_app_r. by eapply IH.
  - by apply confirmed_app_l.
Qed.

Lemma delete_version_tracked v h op e :
  delete_version api v h = (Ret op, e) -> tracked [op] e.
Proof.
  rewrite delete_version_run. destruct (v !! "name") as [n|]; [|done]. simpl.
  destruct (api _ _) as [r|]; [|done].
  destruct (contains "error" r); [done|].
  destruct (r !! "name") as [op'|] eqn:Hn; [|done].
  intros [= -> <-]. simpl. split_and!; try done.
  exists r, op. split_and!; try done. right. apply list_elem_of_here.
Qed.

Lemma delete_non_default_tracked versions h s e :
  delete_non_default api versions h = (Ret s, e) -> tracked s.2 e.
Proof.
  intros Hrun.
  pose proof (spec_for_in fst (non_default_body api)
    (fun s pre => tracked s.2 pre) (fun _ _ => True)) as Hrule.
  eapply run_of_spec in Hrun;
    [ | apply (Hrule) with (pre := []); [ | simpl; lia | done ] ].
  - simpl in Hrun. tauto.
  - clear. intros v s h pre Hv HI. unfold spec. rewrite non_default_body_run.
    destruct (contains "isDefault" v); [by rewrite app_nil_r|].
    destruct (remove_first v s.1) as [vs|] eqn:Hrm; [|done].
    destruct (delete_version api v h) as [[op|x|] e] eqn:Hdel; try done.
    simpl. split.
    + apply (tracked_app s.2); [done| |].
      * eapply tracked_weaken; [by eapply delete_version_tracked|].
        intros op' ->%list_elem_of_singleton. apply elem_of_app. right. apply list_elem_of_here.
      * intros op' Hin. right. apply elem_of_app. by left.
    + apply remove_first_length in Hrm. lia.
Qed.

(** One model: on return, every version delete is confirmed, except
    the last, whose operation joins [default_version_deletions]. *)
Lemma sweep_model_tracked fuel m dvd h dvd' e :
  sweep_model api fuel m dvd h = (Ret dvd', e) ->
  tracked dvd' e /\ forall op, op ∈ dvd -> op ∈ dvd'.
Proof.
  unfold sweep_model.
  intros (n & e1 & ? & Hn & Hrun & ->)%bind_run_Ret.
  apply bind_run_Ret in Hrun as ([] & e2 & ? & Hp & Hrun & ->).
  apply bind_run_Ret in Hrun as (vs & e3 & ? & Hvs & Hrun & ->).
  apply bind_run_Ret in Hrun as (versions & e4 & ? & Hseq & Hrun & ->).
  apply bind_run_Ret in Hrun as (s & e5 & ? & Hloop & Hrun & ->).
  apply bind_run_Ret in Hrun as ([] & e6 & ? & Hwait & Hrun & ->).
  apply bind_run_Ret in Hrun as (v0 & e7 & ? & Hfirst & Hrun & ->).
  apply bind_run_Ret in Hrun as (op & e8 & ? & Hdel & Hrun & ->).
  injection Hrun as <- <-.
  assert (Hq : forall (A : Type) (mm : M A) hh oo ee,
             emits no_version_delete mm -> mm hh = (oo, ee) -> forall ops, tracked ops ee).
  { intros A mm hh oo ee Hem Hr ops. apply tracked_quiet, no_version_delete_nil.
    by eapply emits_run. }
  split; [|intros op' Hin; apply elem_of_app; by left].
  apply (tracked_app []); [eapply Hq; [|exact Hn]; apply emits_getitem | | by intros ? ?%elem_of_nil].
  apply (tracked_app []); [eapply Hq; [|exact Hp]; by apply emits_emit | | by intros ? ?%elem_of_nil].
  apply (tracked_app []); [eapply Hq; [|exact Hvs] | | by intros ? ?%elem_of_nil].
  { apply emits_bind; [by apply emits_execute | intros r; apply emits_getitem]. }
  apply (tracked_app []); [eapply Hq; [|exact Hseq]; apply emits_versions_seq | | by intros ? ?%elem_of_nil].
  apply (tracked_app s.2); [by eapply delete_non_default_tracked | |].
  2:{ intros op' Hin. left. apply confirmed_app_l. by eapply wait_until_deleted_confirms. }
  apply (tracked_app []); [eapply Hq; [|exact Hwait] | | by intros ? ?%elem_of_nil].
  { apply emits_wait_until_deleted; done. }
  apply (tracked_app []); [eapply Hq; [|exact Hfirst]; apply emits_first_item | | by intros ? ?%elem_of_nil].
  rewrite app_nil_r. eapply tracked_weaken; [by eapply delete_version_tracked|].
  intros op' ->%list_elem_of_singleton. apply elem_of_app. right. apply list_elem_of_here.
Qed.

Lemma sweep_models_tracked fuel models dvd h dvd' e :
  for_each (sweep_model api fuel) models dvd h = (Ret dvd', e) ->
  tracked dvd' e /\ forall op, op ∈ dvd -> op ∈ dvd'.
Proof.
  revert dvd h e. induction models as [|m models IH]; intros dvd h e; simpl.
  - by intros [= -> <-].
  - intros (d1 & e1 & e2 & H1 & H2 & ->)%bind_run_Ret.
    apply sweep_model_tracked in H1 as [Ht1 Hs1].
    apply IH in H2 as [Ht2 Hs2]. split; [|by auto].
    apply (tracked_app d1); try done. intros op Hin. right. auto.
Qed.

(** The step bound of [for_in] is never what stops the two inner
    loops: they end by themselves or with an exception. *)
Lemma poll_round_not_running pending h : (poll_round api pending h).1 <> Running.
Proof.
  pose proof (spec_for_in id (poll_body api) (fun _ _ => True)
                (fun c _ => c <> None)) as Hrule.
  assert (Hs : spec (poll_round api pending) h (fun _ _ => True) (fun c _ => c <> None)).
  { eapply spec_mono; [apply Hrule with (pre := []); [|simpl; lia|done] | done | done].
    clear. intros x s h pre Hx _. unfold spec. rewrite poll_body_run. simpl.
    destruct (api _ _) as [r|]; [|done].
    destruct (contains "done" r); [|done].
    destruct (remove_first x s) as [s'|] eqn:Hrm; [|done].
    split; [done|]. apply remove_first_length in Hrm. unfold id. lia. }
  unfold spec in Hs. by destruct (poll_round api pending h) as [[l|x|] e].
Qed.

Lemma delete_non_default_not_running versions h :
  (delete_non_default api versions h).1 <> Running.
Proof.
  pose proof (spec_for_in fst (non_default_body api) (fun _ _ => True)
                (fun c _ => c <> None)) as Hrule.
  assert (Hs : spec (delete_non_default api versions) h
                 (fun _ _ => True) (fun c _ => c <> None)).
  { eapply spec_mono; [apply Hrule with (pre := []); [|simpl; lia|done] | done | done].
    clear. intros v s h pre Hv _. unfold spec. rewrite non_default_body_run.
    destruct (contains "isDefault" v); [done|].
    destruct (remove_first v s.1) as [vs|] eqn:Hrm; [|done].
    rewrite delete_version_run. destruct (v !! "name") as [n|]; [|done]. simpl.
    destruct (api _ _) as [r|]; [|done].
    destruct (contains "error" r); [done|].
    destruct (r !! "name"); [|done].
    split; [done|]. apply remove_first_length in Hrm. simpl. lia. }
  unfold spec in Hs. by destruct (delete_non_default api versions h) as [[s|x|] e].
Qed.

End Tracking.

(** ** The phases of the sweep *)

Lemma split_after_prefix {A} (P : A -> Prop) (a b pre post : list A) x :
  Forall P a -> ¬ P x -> a ++ b = pre ++ x :: post ->
  exists b1, pre = a ++ b1 /\ b = b1 ++ x :: post.
Proof.
  intros Ha Hx. revert pre. induction Ha as [|y a Hy Ha IH]; intros pre; simpl.
  - intros ->. by exists pre.
  - destruct pre as [|z pre]; simpl; intros [= -> Heq]; [done|].
    destruct (IH _ Heq) as (b1 & -> & ->). by exists b1.
Qed.

Section Phases.

Variable api : trace -> request -> option response.

Lemma emits_get_models P project :
  (forall p rs, P (Call (ModelsList p) rs)) -> emits P (get_models api project).
Proof.
  intros H. apply emits_bind; [by apply emits_execute | intros r; apply emits_getitem].
Qed.

(** Either the sweep stops before its last loop, having sent no model
    delete, or it reaches the loop with every version delete settled
    and goes on as [delete_models]. *)
Lemma sweep_run fuel project h :
  let run := sweep api fuel project h in
  (Forall no_model_delete run.2 /\ run.1 <> Ret tt)
  \/ (exists ms e0 models a,
        get_models api project h = (Ret ms, e0)
        /\ models_seq ms (h ++ e0) = (Ret models, [])
        /\ Forall no_model_delete a /\ settled a
        /\ run.2 = a ++ (delete_models api models (h ++ a)).2
        /\ run.1 = (delete_models api models (h ++ a)).1).
Proof.
  simpl. unfold sweep, bind.
  pose proof (emits_get_models no_model_delete project (fun _ _ => I) h) as Hg.
  destruct (get_models api project h) as [[ms|x|] e1] eqn:E1; simpl in Hg;
    [|by left..].
  pose proof (emits_models_seq no_model_delete ms (h ++ e1)) as Hs.
  assert (Hnil : forall o e, models_seq ms (h ++ e1) = (o, e) -> e = []).
  { intros o e. by destruct ms as [[| | |[|]]|]; simpl; intros [= _ <-]. }
  destruct (models_seq ms (h ++ e1)) as [[models|x|] e2] eqn:E2;
    pose proof (Hnil _ _ eq_refl) as ->; clear Hnil Hs; rewrite ?app_nil_r;
    [|by left..].
  pose proof (emits_for_each no_model_delete (sweep_model api fuel) models []
    (fun m dvd => emits_sweep_model api no_model_delete (fun _ => I)
       (fun _ _ => I) I fuel m dvd (fun _ _ => I) (fun _ _ => I)) (h ++ e1)) as Hl.
  destruct (for_each (sweep_model api fuel) models [] (h ++ e1)) as [[dvd|x|] e3] eqn:E3;
    simpl in Hl; [|left; split; [by apply Forall_app|done]..].
  pose proof (emits_wait_until_deleted api no_model_delete (fun _ => I)
    (fun _ _ => I) I fuel dvd ((h ++ e1) ++ e3)) as Hw.
  pose proof (emits_wait_until_deleted api no_version_delete (fun _ => I)
    (fun _ _ => I) I fuel dvd ((h ++ e1) ++ e3)) as Hw'.
  destruct (wait_until_deleted api fuel dvd ((h ++ e1) ++ e3)) as [[[]|x|] e4] eqn:E4;
    simpl in Hw, Hw'; [|left; simpl; rewrite !Forall_app; by split_and!..].
  right. exists ms, e1, models, (e1 ++ e3 ++ e4).
  rewrite !app_assoc.
  destruct (delete_models api models (((h ++ e1) ++ e3) ++ e4)) as [o e5] eqn:E5.
  simpl. split_and!; try done.
  - rewrite !Forall_app. by split_and!.
  - unfold settled. rewrite <- app_assoc.
    apply (tracked_app []); [| | by intros ? ?%elem_of_nil].
    + apply tracked_quiet, no_version_delete_nil.
      eapply emits_run; [|exact E1]. by apply emits_get_models.
    + apply sweep_models_tracked in E3 as [Ht _].
      apply (tracked_app dvd); [done | |].
      * by apply tracked_quiet, no_version_delete_nil.
      * intros op Hin. left. by eapply wait_until_deleted_confirms.
  - by rewrite !app_assoc.
Qed.

(** The last loop sends one delete per model, in order, until one of
    them fails. *)
Lemma delete_models_requests models h :
  let run := delete_models api models h in
  Forall model_phase_event run.2
  /\ (exists k, Forall2 (fun (m : dict) n => m !! "name" = Some n)
                  (take k models) (model_deletes run.2))
  /\ (run.1 = Ret tt ->
      Forall2 (fun (m : dict) n => m !! "name" = Some n) models (model_deletes run.2)).
Proof.
  simpl. split.
  { apply (emits_delete_models api model_phase_event (fun _ => I) models (fun _ _ => I)). }
  revert h. unfold delete_models. induction models as [|m models IH]; intros h; simpl.
  { split; [by exists 0|]. constructor. }
  unfold bind. rewrite delete_model_run.
  destruct (m !! "name") as [n|] eqn:Hn; [|split; [by exists 0 | done]].
  simpl. destruct (api _ _) as [r|].
  2:{ split; [exists 1; simpl; rewrite take_0; by repeat constructor | done]. }
  destruct (contains "error" r).
  { split; [exists 1; simpl; rewrite take_0; by repeat constructor | done]. }
  match goal with |- context [for_each ?b models tt ?hh] =>
    destruct (IH hh) as [[k Hk] Hall]; destruct (for_each b models tt hh) as [o e] end.
  simpl in *. split.
  - exists (S k). simpl. by constructor.
  - intros Ho. constructor; auto.
Qed.

(** With an API that answers every model delete without an ["error"]
    key, the last loop runs to its end. *)
Lemma delete_models_returns models h :
  (forall m : dict, m ∈ models -> is_Some (m !! "name")) ->
  (forall h' n, exists r, api h' (ModelsDelete n) = Some r /\ r !! "error" = None) ->
  (delete_models api models h).1 = Ret tt.
Proof.
  intros Hnames Hapi. revert h. unfold delete_models.
  induction models as [|m models IH]; intros h; simpl; [done|].
  unfold bind. rewrite delete_model_run.
  destruct (Hnames m) as [n ->]; [left|]. simpl.
  destruct (Hapi (h ++ [Print [PStr "Deleting model: "; PValue n]]) n) as (r & -> & He).
  apply contains_false in He. rewrite He.
  match goal with |- context [for_each ?b models tt ?hh] =>
    specialize (IH (fun m' Hm' => Hnames m' (list_elem_of_further _ _ _ Hm')) hh);
    destruct (for_each b models tt hh) as [o e] end.
  done.
Qed.

End Phases.

(** ** C4: models are deleted last *)

(** C4, as stated, fails, in two ways.  First run: every get-operation
    answer says ["done": false], so no version-delete operation ever
    reports completion, and the sweep deletes the model all the same.
    Second run: the delete of version ["a"] is answered with the
    operation [1], which no answer ever reports ["done"]; the handle
    [True] of the delete of ["b"] is [==] to it, so that the [remove]
    after the poll of [True] drops [1], and the model is deleted. *)
Lemma model_deleted_without_completion :
  let api := mock_unfinished_api [version "clf_add_to_cart"]
               [version "v1"; default_version "v2"] in
  let run := sweep api 3 "p" [] in
  let api' := mock_equal_handles_api [version "clf_add_to_cart"]
                [version "a"; default_version "d1"; version "b"; default_version "d2"] in
  let run' := sweep api' 3 "p" [] in
  ((forall h op, exists r, api h (OperationsGet op) = Some r /\ ¬ reports_completion r)
   /\ run.1 = Ret tt
   /\ version_deletes run.2 = [VStr "v1"; VStr "v2"]
   /\ model_deletes run.2 = [VStr "clf_add_to_cart"]
   /\ Forall (fun p => ¬ reports_completion p.2) (poll_log run.2))
  /\ ((forall h r, api' h (OperationsGet (PVal (VInt 1))) = Some r -> r !! "done" = None)
      /\ run'.1 = Ret tt
      /\ delete_log run'.2 =
           [(VStr "a", Some (PVal (VInt 1))); (VStr "b", Some (PVal (VBool true)));
            (VStr "d1", Some (PVal (VBool true)))]
      /\ polls run'.2 =
           [PVal (VInt 1); PVal (VBool true); PVal (VBool true); PVal (VBool true)]
      /\ model_deletes run'.2 = [VStr "clf_add_to_cart"]).
Proof.
  intros api run api' run'. split; split_and!; try by vm_compute.
  - intros h op. eexists. split; [reflexivity|]. by vm_compute.
  - apply (bool_decide_unpack _). by vm_compute.
  - intros h r [= <-]. by vm_compute.
Qed.

(** C4: in every run of the sweep, whatever the API answers, a
    delete-model request comes only after every version-delete request
    of the run, each of which was answered with an operation for which
    (or for a handle [==] to it) a later get-operation answer had the
    key ["done"] ([settled]; the key is what [is_version_deleted] takes
    for completion).  The delete-model requests go through the
    enumerated models in order, at most one each; a sweep that returns
    has sent exactly one per model, and so has one that reached its
    first model delete when the API answers model deletes without an
    ["error"] key. *)
Theorem model_deletes_follow_version_deletes api fuel project :
  let run := sweep api fuel project [] in
  (forall pre n rs post,
      run.2 = pre ++ Call (ModelsDelete n) rs :: post ->
      settled pre /\ version_deletes post = [])
  /\ (forall r models,
        api [] (ModelsList ("projects/" +:+ project)) = Some r ->
        r !! "models" = Some (PList models) ->
        (exists k, Forall2 (fun (m : dict) n => m !! "name" = Some n)
                     (take k models) (model_deletes run.2))
        /\ (run.1 = Ret tt ->
            Forall2 (fun (m : dict) n => m !! "name" = Some n)
              models (model_deletes run.2))
        /\ ((forall m : dict, m ∈ models -> is_Some (m !! "name")) ->
            (forall h n, exists r', api h (ModelsDelete n) = Some r' /\ r' !! "error" = None) ->
            model_deletes run.2 <> [] ->
            Forall2 (fun (m : dict) n => m !! "name" = Some n)
              models (model_deletes run.2))).
Proof.
  intros run. pose proof (sweep_run api fuel project []) as Hrun.
  fold run in Hrun. simpl in Hrun. split.
  - intros pre n rs post Heq.
    destruct Hrun as [[Hno _]|(ms & e0 & models & a & _ & _ & Ha & Hset & Ht & _)].
    + rewrite Heq in Hno. apply Forall_app in Hno as [_ Hno].
      by apply Forall_cons in Hno as [? _].
    + rewrite Ht in Heq.
      destruct (delete_models_requests api models a) as [Hphase _]. simpl in Hphase.
      apply (split_after_prefix no_model_delete) in Heq as (b1 & -> & Hb); [|done|by intros ?].
      rewrite Hb in Hphase. apply Forall_app in Hphase as [Hb1 Hpost].
      apply Forall_cons in Hpost as [_ Hpost].
      split; [|by apply model_phase_quiet].
      apply (tracked_app []); [done| |by intros ? ?%elem_of_nil].
      by apply tracked_quiet, model_phase_quiet.
  - intros r models Hr Hm.
    assert (Hgm : get_models api project [] =
                  (Ret (PList models), [Call (ModelsList ("projects/" +:+ project)) (Some r)])).
    { unfold get_models, bind, execute. rewrite Hr. simpl. unfold getitem. by rewrite Hm. }
    destruct Hrun as [[Hno Hne]|(ms & e0 & models' & a & Hg & Hs & Ha & _ & Ht & Ho)].
    + apply no_model_delete_nil in Hno. rewrite Hno. split_and!; try done.
      exists 0. rewrite take_0. constructor.
    + rewrite Hgm in Hg. injection Hg as <- <-. simpl in Hs. injection Hs as <-.
      destruct (delete_models_requests api models a) as (_ & Hk & Hall).
      simpl in Hk, Hall.
      rewrite Ht, model_deletes_app, (no_model_delete_nil a Ha), Ho. simpl.
      split_and!; try done.
      intros Hnames Hapi _. apply Hall. by apply delete_models_returns.
Qed.

Lemma model_deletes_follow_version_deletes_witness :
  let api := mock_api [version "clf_add_to_cart"; version "clf_checkout"]
               [version "v1"; default_version "v2"] 1 in
  Forall2 (fun (m : dict) n => m !! "name" = Some n)
    [version "clf_add_to_cart"; version "clf_checkout"]
    (model_deletes (sweep api 5 "p" []).2)
  /\ settled (take 46 (sweep api 5 "p" []).2).
Proof.
  intros api.
  destruct (model_deletes_follow_version_deletes api 5 "p") as [Horder Hmodels].
  split.
  - destruct (Hmodels {[ "models" := PList [version "clf_add_to_cart"; version "clf_checkout"] ]}
                [version "clf_add_to_cart"; version "clf_checkout"]) as (_ & Hret & _);
      [vm_compute; reflexivity | vm_compute; reflexivity |].
    apply Hret. vm_compute. reflexivity.
  - apply (Horder (take 46 (sweep api 5 "p" []).2) (VStr "clf_add_to_cart")
             (Some {[ "name" := PVal (VStr "operations/delete_clf_add_to_cart") ]})
             (drop 47 (sweep api 5 "p" []).2)).
    vm_compute. reflexivity.
Defined.

(** ** C8: what the deleters return *)

(** C8: [delete_version] returns the ["name"] field of the answer to
    its delete request, and does so whenever the version has a name and
    the answer has a ["name"] and no ["error"] key.  [delete_model]
    returns nothing of the answer to its request, and the sweep sends
    no get-operation request and does not sleep once it has sent a
    delete-model request. *)
Theorem delete_version_returns_operation api :
  (forall (v : dict) h n r op,
      v !! "name" = Some n ->
      api (h ++ [Print [PStr "Deleting version: "; PValue n]]) (VersionsDelete n) = Some r ->
      r !! "error" = None -> r !! "name" = Some op ->
      delete_version api v h =
        (Ret op, [Print [PStr "Deleting version: "; PValue n];
                  Call (VersionsDelete n) (Some r)]))
  /\ (forall (v : dict) h op e,
        delete_version api v h = (Ret op, e) ->
        exists n r, v !! "name" = Some n
                    /\ e = [Print [PStr "Deleting version: "; PValue n];
                            Call (VersionsDelete n) (Some r)]
                    /\ r !! "name" = Some op)
  /\ (forall (m : dict) h n r,
        m !! "name" = Some n ->
        api (h ++ [Print [PStr "Deleting model: "; PValue n]]) (ModelsDelete n) = Some r ->
        r !! "error" = None ->
        delete_model api m h =
          (Ret tt, [Print [PStr "Deleting model: "; PValue n];
                    Call (ModelsDelete n) (Some r)]))
  /\ (forall fuel project pre n rs post,
        (sweep api fuel project []).2 = pre ++ Call (ModelsDelete n) rs :: post ->
        polls post = [] /\ sleeps post = []).
Proof.
  split_and!.
  - intros v h n r op Hn Hr He Ho. rewrite delete_version_run, Hn. simpl. rewrite Hr.
    apply contains_false in He. by rewrite He, Ho.
  - intros v h op e. rewrite delete_version_run.
    destruct (v !! "name") as [n|]; [|done]. simpl.
    destruct (api _ _) as [r|]; [|done].
    destruct (contains "error" r); [done|].
    destruct (r !! "name") as [op'|] eqn:Ho; [|done].
    intros [= -> <-]. by exists n, r.
  - intros m h n r Hn Hr He. rewrite delete_model_run, Hn. simpl. rewrite Hr.
    apply contains_false in He. by rewrite He.
  - intros fuel project pre n rs post Heq.
    destruct (sweep_run api fuel project [])
      as [[Hno _]|(ms & e0 & models & a & _ & _ & Ha & _ & Ht & _)]; simpl in *.
    + rewrite Heq in Hno. apply Forall_app in Hno as [_ Hno].
      by apply Forall_cons in Hno as [? _].
    + rewrite Ht in Heq.
      destruct (delete_models_requests api models a) as [Hphase _]. simpl in Hphase.
      apply (split_after_prefix no_model_delete) in Heq as (b1 & -> & Hb); [|done|by intros ?].
      rewrite Hb in Hphase. apply Forall_app in Hphase as [_ Hpost].
      apply Forall_cons in Hpost as [_ Hpost]. by apply model_phase_quiet.
Qed.

Lemma delete_version_returns_operation_witness :
  let api := mock_api [version "clf_add_to_cart"] [default_version "v1"] 0 in
  delete_version api (default_version "v1") [] =
    (Ret (PVal (VStr "operations/delete_v1")),
     [Print [PStr "Deleting version: "; PValue (VStr "v1")];
      Call (VersionsDelete (VStr "v1"))
        (Some {[ "name" := PVal (VStr "operations/delete_v1") ]})])
  /\ delete_model api (version "clf_add_to_cart") [] =
    (Ret tt,
     [Print [PStr "Deleting model: "; PValue (VStr "clf_add_to_cart")];
      Call (ModelsDelete (VStr "clf_add_to_cart"))
        (Some {[ "name" := PVal (VStr "operations/delete_clf_add_to_cart") ]})]).
Proof.
  intros api.
  destruct (delete_version_returns_operation api) as (Hv & _ & Hm & _).
  split.
  - apply (Hv (default_version "v1") [] (VStr "v1")
             {[ "name" := PVal (VStr "operations/delete_v1") ]});
      vm_compute; reflexivity.
  - apply (Hm (version "clf_add_to_cart") [] (VStr "clf_add_to_cart")
             {[ "name" := PVal (VStr "operations/delete_clf_add_to_cart") ]});
      vm_compute; reflexivity.
Defined.

(** ** C9: which versions count as non-default *)

Section NonDefault.

Variable api : trace -> request -> option response.

Lemma delete_version_requests (v : dict) h n :
  n ∈ version_deletes (delete_version api v h).2 -> v !! "name" = Some n.
Proof.
  rewrite delete_version_run. destruct (v !! "name") as [n'|]; simpl.
  - destruct (api _ _); simpl; by intros ->%list_elem_of_singleton.
  - by intros ?%elem_of_nil.
Qed.

(** The first inner loop, whatever its outcome: each delete it sends
    names a listed version without the key, and the list it leaves
    behind holds every version with the key. *)
Lemma delete_non_default_spec versions h :
  spec (delete_non_default api versions) h
    (fun s e =>
       (forall n, n ∈ version_deletes e ->
          exists v : dict, v ∈ versions /\ v !! "isDefault" = None /\ v !! "name" = Some n)
       /\ filter has_default_key s.1 = filter has_default_key versions
       /\ (forall v, v ∈ s.1 -> v ∈ versions))
    (fun _ e =>
       forall n, n ∈ version_deletes e ->
          exists v : dict, v ∈ versions /\ v !! "isDefault" = None /\ v !! "name" = Some n).
Proof.
  pose proof (spec_for_in fst (non_default_body api)
    (fun s pre =>
       (forall n, n ∈ version_deletes pre ->
          exists v : dict, v ∈ versions /\ v !! "isDefault" = None /\ v !! "name" = Some n)
       /\ filter has_default_key s.1 = filter has_default_key versions
       /\ (forall v, v ∈ s.1 -> v ∈ versions))
    (fun _ e =>
       forall n, n ∈ version_deletes e ->
          exists v : dict, v ∈ versions /\ v !! "isDefault" = None /\ v !! "name" = Some n))
    as Hrule.
  eapply spec_mono;
    [apply Hrule with (pre := []); [ | simpl; lia | split_and!; [by intros ? ?%elem_of_nil|done..] ]
    | simpl; tauto | done ].
  clear. intros v s h pre Hv (Hdel & Hfil & Hsub). unfold spec.
  rewrite non_default_body_run.
  destruct (contains "isDefault" v) eqn:Hk; [rewrite app_nil_r; by split_and!|].
  apply contains_false in Hk.
  destruct (remove_first v s.1) as [vs|] eqn:Hrm; [|by rewrite app_nil_r].
  assert (Hnew : forall n, n ∈ version_deletes (pre ++ (delete_version api v h).2) ->
             exists v0 : dict, v0 ∈ versions /\ v0 !! "isDefault" = None /\ v0 !! "name" = Some n).
  { intros n. rewrite version_deletes_app, elem_of_app. intros [Hn|Hn]; [by auto|].
    exists v. split_and!; [by apply Hsub | done | by eapply delete_version_requests]. }
  destruct (delete_version api v h) as [[op|x|] e] eqn:Hrun; simpl in *; try done.
  split_and!; [done | | | ].
  - rewrite <- Hfil. apply (remove_first_filter _ v); [|done|].
    + intros y z Heq. by apply py_eq_lookup.
    + unfold has_default_key. rewrite Hk. by intros [? ?].
  - intros v' Hv'. apply Hsub. by eapply remove_first_sub.
  - apply remove_first_length in Hrm. lia.
Qed.

End NonDefault.

(** The test the loop makes on the version its iterator is on: a
    version that has the key ["isDefault"], with any value, is passed
    over, no request, nothing removed; one that lacks it has a version
    [==] to it removed from the list and a delete for its name
    requested.  Over the whole loop, every delete requested names a
    listed version without the key, and every version with the key is
    still in the list at the end. *)
Lemma versions_loop_key_test api :
  (forall (v : dict) x s h,
      v !! "isDefault" = Some x -> non_default_body api v s h = (Ret s, []))
  /\ (forall (v : dict) s h n,
        v !! "isDefault" = None -> v ∈ s.1 -> v !! "name" = Some n ->
        version_deletes (non_default_body api v s h).2 = [n]
        /\ forall s', (non_default_body api v s h).1 = Ret s' ->
                      remove_first v s.1 = Some s'.1)
  /\ (forall versions h,
        let run := delete_non_default api versions h in
        (forall n, n ∈ version_deletes run.2 ->
           exists v : dict, v ∈ versions /\ v !! "isDefault" = None /\ v !! "name" = Some n)
        /\ (forall s, run.1 = Ret s ->
              filter has_default_key s.1 = filter has_default_key versions)).
Proof.
  split_and!.
  - intros v x s h Hk. rewrite non_default_body_run.
    by rewrite (proj2 (contains_spec "isDefault" v) (mk_is_Some _ _ Hk)).
  - intros v s h n Hk Hin Hn. rewrite non_default_body_run.
    rewrite (proj2 (contains_false "isDefault" v) Hk).
    destruct (remove_first_is_Some v s.1 Hin) as [vs ->].
    rewrite delete_version_run, Hn. simpl.
    destruct (api _ _) as [r|]; [|done].
    destruct (contains "error" r); [done|].
    destruct (r !! "name"); [|done]. split; [done|]. by intros s' [= <-].
  - intros versions h run. pose proof (delete_non_default_spec api versions h) as H.
    unfold spec in H. fold run in H.
    destruct run as [[s|x|] e]; simpl; split; try done.
    + tauto.
    + intros s' [= <-]. tauto.
Qed.

(** C9: versions [v1; v2; v3], of which only [v3] has the key
    ["isDefault"].  [v2] lacks the key and is not taken for non-default:
    removing [v1] moves it into the slot the iterator has passed, the
    loop never tests it and sends no delete for it, and it is left at
    the head of the list, where the sweep then deletes it as
    [versions[0]], the default. *)
Theorem keyless_version_taken_for_default :
  let v1 := version "v1" in
  let v2 := version "v2" in
  let v3 := default_version "v3" in
  let api := mock_api [version "clf_add_to_cart"] [v1; v2; v3] 0 in
  let loop := delete_non_default api [v1; v2; v3] [] in
  v2 !! "isDefault" = None
  /\ loop.1 = Ret ([v2; v3], [PVal (VStr "operations/delete_v1")])
  /\ version_deletes loop.2 = [VStr "v1"]
  /\ first_item [v2; v3] [] = (Ret v2, [])
  /\ version_deletes (sweep api 3 "p" []).2 = [VStr "v1"; VStr "v2"].
Proof. split_and!; by vm_compute. Qed.

(** ** One model, and the sweep once the models are listed *)

Section ModelRun.

Variable api : trace -> request -> option response.

Lemma sweep_model_run fuel (m : dict) dvd h :
  sweep_model api fuel m dvd h =
    match m !! "name" with
    | None => (Raise (KeyError "name"), [])
    | Some n =>
        let p := Print [PStr "Model: "; PValue n] in
        match api (h ++ [p]) (VersionsList n) with
        | None => (Raise HttpError, [p; Call (VersionsList n) None])
        | Some r =>
            let pre := [p; Call (VersionsList n) (Some r)] in
            match r !! "versions" with
            | None => (Raise (KeyError "versions"), pre)
            | Some vs =>
                let '(o, e) := delete_versions api fuel vs dvd (h ++ pre) in (o, pre ++ e)
            end
        end
    end.
Proof.
  unfold sweep_model. rewrite bind_getitem. destruct (m !! "name") as [n|]; [|done].
  unfold print. rewrite bind_emit. unfold get_versions.
  rewrite bind_assoc, bind_execute. simpl.
  destruct (api _ _) as [r|]; [|done].
  rewrite bind_getitem. destruct (r !! "versions") as [vs|]; [|done].
  rewrite <- app_assoc. simpl. fold (delete_versions api fuel vs dvd).
  by destruct (delete_versions api fuel vs dvd _).
Qed.

(** The sweep once the models are listed. *)
Lemma sweep_listed fuel project r models :
  api [] (ModelsList ("projects/" +:+ project)) = Some r ->
  r !! "models" = Some (PList models) ->
  let c0 := Call (ModelsList ("projects/" +:+ project)) (Some r) in
  sweep api fuel project [] =
    (let '(o, e) :=
       (default_version_deletions <- for_each (sweep_model api fuel) models [] ;;
        wait_until_deleted api fuel default_version_deletions ;;;
        delete_models api models) [c0] in
     (o, c0 :: e)).
Proof.
  intros Hr Hm. unfold sweep, get_models.
  rewrite bind_assoc, bind_execute, Hr. simpl.
  rewrite bind_getitem, Hm. simpl. by rewrite bind_ret_l.
Qed.

End ModelRun.

(** ** C10: missing keys and the empty version list *)

(** C10: a list-models answer without the key ["models"] stops the
    sweep with [KeyError] right after the request; a list-versions
    answer without the key ["versions"] stops [sweep_model] with
    [KeyError]; when the loop over [versions] has removed every version
    (or the list was empty) and the polling loop has ended,
    [versions[0]] stops [sweep_model] with [IndexError]; and an
    exception of [sweep_model] for any model ends the sweep with that
    exception. *)
Theorem missing_key_or_version_raises api fuel :
  (forall project r,
      api [] (ModelsList ("projects/" +:+ project)) = Some r ->
      r !! "models" = None ->
      sweep api fuel project [] =
        (Raise (KeyError "models"),
         [Call (ModelsList ("projects/" +:+ project)) (Some r)]))
  /\ (forall (m : dict) dvd h n r,
        m !! "name" = Some n ->
        api (h ++ [Print [PStr "Model: "; PValue n]]) (VersionsList n) = Some r ->
        r !! "versions" = None ->
        sweep_model api fuel m dvd h =
          (Raise (KeyError "versions"),
           [Print [PStr "Model: "; PValue n]; Call (VersionsList n) (Some r)]))
  /\ (forall (m : dict) dvd h n r versions dip e1 e2,
        m !! "name" = Some n ->
        api (h ++ [Print [PStr "Model: "; PValue n]]) (VersionsList n) = Some r ->
        r !! "versions" = Some (PList versions) ->
        let pre := [Print [PStr "Model: "; PValue n]; Call (VersionsList n) (Some r)] in
        delete_non_default api versions (h ++ pre) = (Ret ([], dip), e1) ->
        wait_until_deleted api fuel dip (h ++ pre ++ e1) = (Ret tt, e2) ->
        sweep_model api fuel m dvd h = (Raise IndexError, pre ++ e1 ++ e2))
  /\ (forall project r models1 (m : dict) models2 dvd e1 x e2,
        api [] (ModelsList ("projects/" +:+ project)) = Some r ->
        r !! "models" = Some (PList (models1 ++ m :: models2)) ->
        let c0 := Call (ModelsList ("projects/" +:+ project)) (Some r) in
        for_each (sweep_model api fuel) models1 [] [c0] = (Ret dvd, e1) ->
        sweep_model api fuel m dvd (c0 :: e1) = (Raise x, e2) ->
        sweep api fuel project [] = (Raise x, c0 :: e1 ++ e2)).
Proof.
  split_and!.
  - intros project r Hr Hm. unfold sweep, get_models.
    rewrite bind_assoc, bind_execute, Hr. simpl. by rewrite bind_getitem, Hm.
  - intros m dvd h n r Hn Hr Hv. rewrite sweep_model_run, Hn. cbv zeta.
    by rewrite Hr, Hv.
  - intros m dvd h n r versions dip e1 e2 Hn Hr Hv pre Hloop Hwait.
    rewrite sweep_model_run, Hn. cbv zeta. rewrite Hr, Hv. fold pre.
    unfold delete_versions. simpl. rewrite bind_ret_l.
    rewrite (bind_Ret _ _ _ _ _ Hloop). simpl.
    rewrite <- app_assoc, (bind_Ret _ _ _ _ _ Hwait). simpl. by rewrite !app_nil_r.
  - intros project r models1 m models2 dvd e1 x e2 Hr Hm c0 Hdone Hx.
    rewrite (sweep_listed api fuel project r _ Hr Hm). fold c0.
    by rewrite (bind_Raise _ _ _ x (e1 ++ e2) (for_each_raise _ _ _ _ _ _ _ _ _ _ Hdone Hx)).
Qed.

Lemma missing_key_or_version_raises_witness :
  sweep (mock_api [] [] 0) 3 "p" [] =
    (Raise (KeyError "models"), [Call (ModelsList "projects/p") (Some ∅)])
  /\ sweep_model (mock_api [version "clf_add_to_cart"] [] 0) 3 (version "clf_add_to_cart") [] [] =
    (Raise (KeyError "versions"),
     [Print [PStr "Model: "; PValue (VStr "clf_add_to_cart")];
      Call (VersionsList (VStr "clf_add_to_cart")) (Some ∅)])
  /\ (sweep_model (mock_api [version "clf_add_to_cart"] [version "v1"] 0) 3
        (version "clf_add_to_cart") [] []).1 = Raise IndexError.
Proof.
  split_and!.
  - destruct (missing_key_or_version_raises (mock_api [] [] 0) 3) as (H & _).
    apply (H "p" ∅); vm_compute; reflexivity.
  - destruct (missing_key_or_version_raises (mock_api [version "clf_add_to_cart"] [] 0) 3)
      as (_ & H & _).
    apply (H (version "clf_add_to_cart") [] [] (VStr "clf_add_to_cart") ∅);
      vm_compute; reflexivity.
  - destruct (missing_key_or_version_raises
                (mock_api [version "clf_add_to_cart"] [version "v1"] 0) 3)
      as (_ & _ & H & _).
    pose (api := mock_api [version "clf_add_to_cart"] [version "v1"] 0).
    pose (pre := [Print [PStr "Model: "; PValue (VStr "clf_add_to_cart")];
                  Call (VersionsList (VStr "clf_add_to_cart"))
                    (Some (list_response "versions" [version "v1"]))]).
    rewrite (H (version "clf_add_to_cart") [] [] (VStr "clf_add_to_cart")
               (list_response "versions" [version "v1"]) [version "v1"]
               [PVal (VStr "operations/delete_v1")]
               (delete_non_default api [version "v1"] pre).2
               (wait_until_deleted api 3 [PVal (VStr "operations/delete_v1")]
                  (pre ++ (delete_non_default api [version "v1"] pre).2)).2);
      [reflexivity | vm_compute; reflexivity ..].
Defined.

(** ** C5: the polling loops *)

Section PollingLoop.

Variable api : trace -> request -> option response.

Lemma wait_until_deleted_nil fuel h : wait_until_deleted api fuel [] h = (Ret tt, []).
Proof. by destruct fuel. Qed.

Lemma wait_until_deleted_step fuel p ps h :
  wait_until_deleted api (S fuel) (p :: ps) h =
    match poll_round api (p :: ps) (h ++ waiting) with
    | (Ret l, e) =>
        let '(o, e') := wait_until_deleted api fuel l (h ++ waiting ++ e) in
        (o, waiting ++ e ++ e')
    | (Raise x, e) => (Raise x, waiting ++ e)
    | (Running, e) => (Running, waiting ++ e)
    end.
Proof.
  simpl. unfold print, sleep. rewrite !bind_emit. rewrite <- app_assoc. simpl.
  unfold bind, waiting.
  destruct (poll_round api (p :: ps) _) as [[l|x|] e]; try done.
  rewrite <- app_assoc. simpl. by destruct (wait_until_deleted api fuel l _).
Qed.

Lemma rounds_step k pending h :
  rounds api (S k) pending h =
    match poll_round api pending (h ++ waiting) with
    | (Ret l, e) =>
        let '(o, e') := rounds api k l (h ++ waiting ++ e) in
        (o, waiting ++ e ++ e')
    | (Raise x, e) => (Raise x, waiting ++ e)
    | (Running, e) => (Running, waiting ++ e)
    end.
Proof.
  simpl. unfold print, sleep. rewrite !bind_emit. rewrite <- app_assoc. simpl.
  unfold bind, waiting.
  destruct (poll_round api pending _) as [[l|x|] e]; try done.
  rewrite <- app_assoc. simpl. by destruct (rounds api k l _).
Qed.

Lemma no_sleep_nil t : Forall no_sleep t -> sleeps t = [].
Proof.
  induction 1 as [|e t He _ IH]; [done|]. by destruct e as [[]| |].
Qed.

Lemma poll_round_sleeps pending h : sleeps (poll_round api pending h).2 = [].
Proof.
  apply no_sleep_nil.
  apply (emits_poll_round api no_sleep (fun _ => I) (fun _ _ => I)).
Qed.

Lemma rounds_sleeps k pending h l e :
  rounds api k pending h = (Ret l, e) -> sleeps e = replicate k 5%Z.
Proof.
  revert pending h e. induction k as [|k IH]; intros pending h e.
  - by intros [= _ <-].
  - rewrite rounds_step. pose proof (poll_round_sleeps pending (h ++ waiting)) as Hs.
    destruct (poll_round api pending _) as [[l'|x|] e1]; try done.
    destruct (rounds api k l' _) as [o e2] eqn:Hk. intros [= -> <-].
    change (sleeps (waiting ++ e1 ++ e2) = replicate (S k) 5%Z).
    rewrite !sleeps_app. simpl in Hs. by rewrite Hs, (IH _ _ _ Hk).
Qed.

(** The loop returns exactly at the first round after which nothing is
    pending. *)
Lemma wait_until_deleted_rounds fuel pending h e :
  wait_until_deleted api fuel pending h = (Ret tt, e) <->
  exists k, k <= fuel /\ rounds api k pending h = (Ret [], e)
            /\ forall j l e', j < k -> rounds api j pending h = (Ret l, e') -> l <> [].
Proof.
  split.
  - revert pending h e. induction fuel as [|fuel IH]; intros [|p ps] h e.
    + intros [= <-]. exists 0. split_and!; [done..|]. intros; lia.
    + done.
    + intros [= <-]. exists 0. split_and!; [lia|done|]. intros; lia.
    + rewrite wait_until_deleted_step.
      destruct (poll_round api (p :: ps) _) as [[l|x|] e1] eqn:Hround; try done.
      destruct (wait_until_deleted api fuel l _) as [o e2] eqn:Hw. intros [= -> <-].
      destruct (IH _ _ _ Hw) as (k & Hk & Hr & Hmin).
      exists (S k). split_and!; [lia | by rewrite rounds_step, Hround, Hr |].
      intros [|j] l' e' Hj; [by intros [= <- _]|].
      rewrite rounds_step, Hround.
      destruct (rounds api j l _) as [o' e3] eqn:Hj'. intros [= -> _].
      eapply (Hmin j); [lia | done].
  - intros (k & Hk & Hr & Hmin). revert fuel pending h e Hk Hr Hmin.
    induction k as [|k IH]; intros fuel pending h e Hk Hr Hmin.
    + injection Hr as -> <-. apply wait_until_deleted_nil.
    + destruct pending as [|p ps]; [by destruct (Hmin 0 [] [] ltac:(lia) eq_refl)|].
      destruct fuel as [|fuel]; [lia|].
      rewrite rounds_step in Hr. rewrite wait_until_deleted_step.
      destruct (poll_round api (p :: ps) _) as [[l|x|] e1] eqn:Hround; try done.
      destruct (rounds api k l _) as [o e2] eqn:Hr'. injection Hr as -> <-.
      rewrite (IH fuel l _ e2); [done | lia | done |].
      intros j l' e' Hj Hrj. apply (Hmin (S j) l' (waiting ++ e1 ++ e')); [lia|].
      by rewrite rounds_step, Hround, Hrj.
Qed.

(** A round keeps a handle that is [==] to [op] when no such handle is
    ever answered with ["done"]. *)
Lemma poll_round_stuck op pending h :
  Exists (fun y => py_eq y op) pending -> never_done api op ->
  spec (poll_round api pending) h
    (fun l _ => Exists (fun y => py_eq y op) l)
    (fun c _ => c = Some HttpError /\ faulty api).
Proof.
  intros Hin Hstuck.
  pose proof (spec_for_in id (poll_body api)
                (fun l _ => Exists (fun y => py_eq y op) l)
                (fun c _ => c = Some HttpError /\ faulty api)) as Hrule.
  eapply spec_mono; [apply Hrule with (pre := []); [|simpl; lia|done] | simpl; tauto | done].
  clear Hin. intros x s h' pre Hx Hin. unfold spec. rewrite poll_body_run. simpl.
  destruct (api _ _) as [r|] eqn:Hr; [|split; [done | by eexists _, _]].
  destruct (contains "done" r) eqn:Hd; [|done].
  destruct (remove_first_is_Some x s Hx) as [s' Hrm]. rewrite Hrm. split.
  - apply Exists_exists in Hin as (y & Hy & Heq). apply Exists_exists.
    destruct (remove_first_elem _ _ _ _ Hrm Hy) as [Hyx|]; [|by exists y].
    apply contains_spec in Hd as [? Hd].
    rewrite (Hstuck x _ _ (py_eq_trans _ _ _ (py_eq_sym _ _ Hyx) Heq) Hr) in Hd. done.
  - apply remove_first_length in Hrm. unfold id. lia.
Qed.

Lemma wait_until_deleted_stuck op pending fuel h :
  Exists (fun y => py_eq y op) pending -> never_done api op ->
  spec (wait_until_deleted api fuel pending) h
    (fun _ _ => False)
    (fun c e => match c with
                | None => sleeps e = replicate fuel 5%Z
                | Some x => x = HttpError /\ faulty api
                end).
Proof.
  intros Hin Hstuck. revert pending h Hin.
  induction fuel as [|fuel IH]; intros [|p ps] h Hin; try by apply Exists_nil in Hin.
  - done.
  - unfold spec. rewrite wait_until_deleted_step.
    pose proof (poll_round_stuck op (p :: ps) (h ++ waiting) Hin Hstuck) as Hround.
    pose proof (poll_round_sleeps (p :: ps) (h ++ waiting)) as Hs.
    unfold spec in Hround.
    destruct (poll_round api (p :: ps) _) as [[l|x|] e1]; simpl in Hs.
    + specialize (IH l (h ++ waiting ++ e1) Hround). unfold spec in IH.
      destruct (wait_until_deleted api fuel l _) as [[[]|x|] e2]; try done.
      rewrite !sleeps_app, Hs, IH. done.
    + by destruct Hround as [[= ->] ?].
    + by destruct Hround as [[=] _].
Qed.

End PollingLoop.

(** C5, as stated, fails, in two ways.  First run: the only pending
    operation never reports completion, every answer for it says
    ["done": false], and the loop returns after one round of 5 seconds.
    Second run: the pending operation [1] never reports completion, no
    answer for it has the key ["done"]; the pending handle [True] is
    [==] to it, the [remove] after the poll of [True] drops [1], and the
    loop returns after two rounds. *)
Lemma polling_loop_returns_without_completion :
  let api := mock_unfinished_api [] [] in
  let op := PVal (VStr "operations/delete_v1") in
  let run := wait_until_deleted api 1 [op] [] in
  let api' := mock_equal_handles_api [] [] in
  let run' := wait_until_deleted api' 2 [PVal (VInt 1); PVal (VBool true)] [] in
  ((forall h, exists r, api h (OperationsGet op) = Some r /\ ¬ reports_completion r)
   /\ run.1 = Ret tt
   /\ sleeps run.2 = [5%Z]
   /\ poll_log run.2 = [(op, {[ "name" := op; "done" := PVal (VBool false) ]})])
  /\ ((forall h r, api' h (OperationsGet (PVal (VInt 1))) = Some r -> r !! "done" = None)
      /\ run'.1 = Ret tt
      /\ sleeps run'.2 = [5%Z; 5%Z]
      /\ polls run'.2 = [PVal (VInt 1); PVal (VBool true); PVal (VBool true)]).
Proof.
  intros api op run api' run'. split; split_and!; try by vm_compute.
  - intros h. eexists. split; [reflexivity|]. by vm_compute.
  - intros h r [= <-]. by vm_compute.
Qed.

(** C5: each polling loop returns at once when nothing is pending and
    otherwise sleeps 5 seconds before every round, never any other
    time; it returns exactly at the first round after which its pending
    list is empty, having slept 5 seconds that many times.  If no answer
    for a pending operation, or for a handle that is [==] to it, ever
    has the key ["done"], no number of rounds makes the loop return, and
    unless a get-operation request fails it is still running after any
    number [fuel] of rounds, 5 seconds each. *)
Theorem polling_loop_blocks_until_empty api :
  (forall fuel h, wait_until_deleted api fuel [] h = (Ret tt, []))
  /\ (forall fuel pending h,
        Forall (fun s => s = 5%Z) (sleeps (wait_until_deleted api fuel pending h).2))
  /\ (forall fuel pending h e,
        wait_until_deleted api fuel pending h = (Ret tt, e) <->
        exists k, k <= fuel /\ rounds api k pending h = (Ret [], e)
                  /\ forall j l e', j < k -> rounds api j pending h = (Ret l, e') -> l <> [])
  /\ (forall k pending h l e,
        rounds api k pending h = (Ret l, e) -> sleeps e = replicate k 5%Z)
  /\ (forall op pending,
        op ∈ pending ->
        (forall op' h r, py_eq op' op ->
           api h (OperationsGet op') = Some r -> r !! "done" = None) ->
        forall fuel h,
          (wait_until_deleted api fuel pending h).1 <> Ret tt
          /\ ((forall h' op', is_Some (api h' (OperationsGet op'))) ->
              (wait_until_deleted api fuel pending h).1 = Running
              /\ sleeps (wait_until_deleted api fuel pending h).2 = replicate fuel 5%Z)).
Proof.
  split_and!.
  - apply wait_until_deleted_nil.
  - intros fuel pending h. apply poll_phase_quiet.
    apply (emits_wait_until_deleted api poll_phase_event (fun _ => I) (fun _ _ => I) I).
  - apply wait_until_deleted_rounds.
  - apply rounds_sleeps.
  - intros op pending Hin Hstuck fuel h.
    assert (Hex : Exists (fun y => py_eq y op) pending).
    { apply Exists_exists. by exists op. }
    pose proof (wait_until_deleted_stuck api op pending fuel h Hex Hstuck) as H.
    unfold spec in H.
    destruct (wait_until_deleted api fuel pending h) as [[[]|x|] e]; simpl; [done| |by split].
    split; [done|]. intros Hok. destruct H as [_ (h' & op' & Hf)].
    destruct (Hok h' op') as [? Hs]. by rewrite Hf in Hs.
Qed.

Lemma polling_loop_blocks_until_empty_witness :
  let api := mock_stuck_api [] [] in
  let op := PVal (VStr "operations/delete_v1") in
  (wait_until_deleted api 4 [op] []).1 = Running
  /\ sleeps (wait_until_deleted api 4 [op] []).2 = [5; 5; 5; 5]%Z.
Proof.
  intros api op.
  destruct (polling_loop_blocks_until_empty api) as (_ & _ & _ & _ & H).
  apply (H op [op]).
  - apply list_elem_of_here.
  - intros op' h r _ [= <-]. vm_compute. reflexivity.
  - intros h' op'. eexists. reflexivity.
Defined.

(** ** C7: a model with a single, default version *)

Section SingleDefault.

Variable api : trace -> request -> option response.

Lemma poll_count_app op h t : poll_count op (h ++ t) = poll_count op h + poll_count op t.
Proof. unfold poll_count. by rewrite polls_app, filter_app, length_app. Qed.

(** With one version, and that one carrying the key, the first inner
    loop does nothing. *)
Lemma delete_non_default_single (v : dict) h :
  is_Some (v !! "isDefault") ->
  delete_non_default api [v] h = (Ret ([v], []), []).
Proof.
  intros Hk. unfold delete_non_default. simpl.
  rewrite (bind_Ret _ _ _ ([v], []) []); [done|].
  rewrite non_default_body_run. by rewrite (proj2 (contains_spec "isDefault" v) Hk).
Qed.

(** One round over a single pending operation. *)
Lemma poll_round_single op h :
  let p := Print [PStr "Checking status for operation: "; PPayload op] in
  poll_round api [op] h =
    match api (h ++ [p]) (OperationsGet op) with
    | None => (Raise HttpError, [p; Call (OperationsGet op) None])
    | Some r =>
        let checked := [p; Call (OperationsGet op) (Some r); Print [PResponse r]] in
        if contains "done" r
        then (Ret [], checked ++ [Print [PStr "Deletion completed: "; PPayload op]])
        else (Ret [op], checked)
    end.
Proof.
  unfold poll_round. simpl. unfold bind. rewrite poll_body_run. simpl.
  destruct (api _ _) as [r|]; [|done].
  destruct (contains "done" r); simpl; [|done].
  by rewrite decide_True.
Qed.

(** An operation that reports ["done"] from its [k]-th poll on is
    waited for at most [k + 1] rounds. *)
Lemma wait_until_deleted_single op k :
  (forall h, exists rg, api h (OperationsGet op) = Some rg
                        /\ (k <= poll_count op h -> is_Some (rg !! "done"))) ->
  forall d fuel h,
    k <= poll_count op h + d -> d < fuel ->
    exists j e, 1 <= j <= S d
                /\ wait_until_deleted api fuel [op] h = (Ret tt, e)
                /\ requests e = replicate j (OperationsGet op).
Proof.
  intros Hapi. induction d as [|d IH]; intros [|fuel] h Hk Hfuel; try lia.
  - rewrite wait_until_deleted_step, poll_round_single. cbv zeta.
    destruct (Hapi (h ++ waiting ++ [Print [PStr "Checking status for operation: "; PPayload op]]))
      as (rg & Hrg & Hdone).
    rewrite <- app_assoc. rewrite Hrg.
    rewrite (proj2 (contains_spec "done" rg)).
    2:{ apply Hdone. rewrite !poll_count_app. lia. }
    rewrite wait_until_deleted_nil. exists 1. eexists. split_and!; [lia..|done|done].
  - rewrite wait_until_deleted_step, poll_round_single. cbv zeta.
    destruct (Hapi (h ++ waiting ++ [Print [PStr "Checking status for operation: "; PPayload op]]))
      as (rg & Hrg & Hdone).
    rewrite <- app_assoc. rewrite Hrg.
    destruct (contains "done" rg).
    + rewrite wait_until_deleted_nil. exists 1. eexists. split_and!; [lia..|done|done].
    + match goal with |- context [wait_until_deleted api fuel [op] ?hh] =>
        destruct (IH fuel hh) as (j & e & Hj & -> & He) end.
      * rewrite !poll_count_app. unfold poll_count at 3. simpl.
        rewrite filter_cons_True by done. simpl. lia.
      * lia.
      * exists (S j). eexists. split_and!; [lia..|done|].
        rewrite !requests_app, He. done.
Qed.

(** The whole sweep over one model whose only version has the key. *)
Lemma sweep_single_default fuel project rl (m v : dict) n vn op k :
  api [] (ModelsList ("projects/" +:+ project)) = Some rl ->
  rl !! "models" = Some (PList [m]) ->
  m !! "name" = Some n ->
  is_Some (v !! "isDefault") -> v !! "name" = Some vn ->
  (forall h, exists rv, api h (VersionsList n) = Some rv
                        /\ rv !! "versions" = Some (PList [v])) ->
  (forall h, exists rd, api h (VersionsDelete vn) = Some rd
                        /\ rd !! "error" = None /\ rd !! "name" = Some op) ->
  (forall h, exists rg, api h (OperationsGet op) = Some rg
                        /\ (k <= poll_count op h -> is_Some (rg !! "done"))) ->
  (forall h, exists rm, api h (ModelsDelete n) = Some rm /\ rm !! "error" = None) ->
  k < fuel ->
  exists j, 1 <= j <= S k
            /\ (sweep api fuel project []).1 = Ret tt
            /\ requests (sweep api fuel project []).2 =
                 [ModelsList ("projects/" +:+ project); VersionsList n; VersionsDelete vn]
                 ++ replicate j (OperationsGet op) ++ [ModelsDelete n].
Proof.
  intros Hrl Hms Hn Hk Hvn Hlist Hdel Hget Hmdel Hfuel.
  rewrite (sweep_listed api fuel project rl [m] Hrl Hms).
  set (c0 := Call (ModelsList ("projects/" +:+ project)) (Some rl)).
  (* the model's versions *)
  set (p1 := Print [PStr "Model: "; PValue n]).
  destruct (Hlist ([c0] ++ [p1])) as (rv & Hrv & Hvs).
  set (pre := [p1; Call (VersionsList n) (Some rv)]).
  set (p2 := Print [PStr "Deleting version: "; PValue vn]).
  destruct (Hdel (([c0] ++ pre) ++ [p2])) as (rd & Hrd & Hne & Hop).
  assert (Hmodel : sweep_model api fuel m [] [c0] =
                   (Ret [op], pre ++ [p2; Call (VersionsDelete vn) (Some rd)])).
  { rewrite sweep_model_run, Hn. cbv zeta. fold p1. rewrite Hrv, Hvs. fold pre.
    unfold delete_versions. simpl versions_seq. rewrite bind_ret_l.
    rewrite (bind_Ret _ _ _ _ _ (delete_non_default_single v _ Hk)). simpl fst. simpl snd.
    rewrite app_nil_r, (bind_Ret _ _ _ _ _ (wait_until_deleted_nil api fuel _)).
    rewrite app_nil_r. change (first_item [v]) with (ret v). rewrite bind_ret_l.
    assert (Hdv : delete_version api v ([c0] ++ pre) =
                  (Ret op, [p2; Call (VersionsDelete vn) (Some rd)])).
    { rewrite delete_version_run, Hvn. cbv zeta. fold p2. rewrite Hrd.
      apply contains_false in Hne. by rewrite Hne, Hop. }
    by rewrite (bind_Ret _ _ _ _ _ Hdv). }
  simpl for_each. rewrite bind_assoc, (bind_Ret _ _ _ _ _ Hmodel), bind_ret_l.
  (* the second polling loop *)
  match goal with |- context [bind (wait_until_deleted api fuel [op]) _ ?hh] =>
    destruct (wait_until_deleted_single op k Hget k fuel hh) as (j & e & Hj & Hwait & He);
      [lia | done |] end.
  rewrite (bind_Ret _ _ _ _ _ Hwait).
  (* the model *)
  match goal with |- context [delete_models api [m] ?hh] =>
    set (h4 := hh);
    destruct (Hmdel (h4 ++ [Print [PStr "Deleting model: "; PValue n]])) as (rm & Hrm & Hnm) end.
  assert (Hlast : delete_models api [m] h4 =
                  (Ret tt, [Print [PStr "Deleting model: "; PValue n];
                            Call (ModelsDelete n) (Some rm)])).
  { unfold delete_models. simpl. unfold bind. rewrite delete_model_run, Hn. cbv zeta.
    rewrite Hrm. apply contains_false in Hnm. by rewrite Hnm. }
  rewrite Hlast. exists j. split_and!; [lia..|done|]. simpl.
  rewrite !requests_app, He. done.
Qed.

End SingleDefault.

(** C7: one model whose version list is exactly
    [[{"name": "v1", "isDefault": true}]], with an API that answers the
    deletes without an ["error"] key and reports the version's operation
    ["done"] from its [k]-th poll on.  The loop over the versions sends
    nothing and removes nothing; with more than [k] rounds allowed the
    sweep returns, and its requests are, in order: list the models, list
    the versions, delete ["v1"], poll its operation (at most [k + 1]
    times), delete the model. *)
Theorem single_default_version_deleted_directly api fuel project rl (m : dict) n op k :
  api [] (ModelsList ("projects/" +:+ project)) = Some rl ->
  rl !! "models" = Some (PList [m]) ->
  m !! "name" = Some n ->
  (forall h, exists rv, api h (VersionsList n) = Some rv
                        /\ rv !! "versions" = Some (PList [default_version "v1"])) ->
  (forall h, exists rd, api h (VersionsDelete (VStr "v1")) = Some rd
                        /\ rd !! "error" = None /\ rd !! "name" = Some op) ->
  (forall h, exists rg, api h (OperationsGet op) = Some rg
                        /\ (k <= poll_count op h -> is_Some (rg !! "done"))) ->
  (forall h, exists rm, api h (ModelsDelete n) = Some rm /\ rm !! "error" = None) ->
  k < fuel ->
  (forall h, delete_non_default api [default_version "v1"] h =
             (Ret ([default_version "v1"], []), []))
  /\ exists j, 1 <= j <= S k
      /\ (sweep api fuel project []).1 = Ret tt
      /\ requests (sweep api fuel project []).2 =
           [ModelsList ("projects/" +:+ project); VersionsList n; VersionsDelete (VStr "v1")]
           ++ replicate j (OperationsGet op) ++ [ModelsDelete n].
Proof.
  intros Hrl Hms Hn Hlist Hdel Hget Hmdel Hfuel.
  assert (Hkey : is_Some (default_version "v1" !! "isDefault")) by (by eexists).
  split.
  - intros h. by apply delete_non_default_single.
  - by apply (sweep_single_default api fuel project rl m (default_version "v1") n (VStr "v1") op k).
Qed.

Lemma single_default_version_deleted_directly_witness :
  let api := mock_api [version "clf_add_to_cart"] [default_version "v1"] 1 in
  let op := PVal (VStr "operations/delete_v1") in
  (forall h, delete_non_default api [default_version "v1"] h =
             (Ret ([default_version "v1"], []), []))
  /\ exists j, 1 <= j <= 2
      /\ (sweep api 3 "clf" []).1 = Ret tt
      /\ requests (sweep api 3 "clf" []).2 =
           [ModelsList ("projects/" +:+ "clf"); VersionsList (VStr "clf_add_to_cart");
            VersionsDelete (VStr "v1")]
           ++ replicate j (OperationsGet op) ++ [ModelsDelete (VStr "clf_add_to_cart")].
Proof.
  intros api op.
  apply (single_default_version_deleted_directly api 3 "clf"
           (list_response "models" [version "clf_add_to_cart"])
           (version "clf_add_to_cart") (VStr "clf_add_to_cart") op 1).
  - vm_compute. reflexivity.
  - vm_compute. reflexivity.
  - vm_compute. reflexivity.
  - intros h. eexists. split; [reflexivity | vm_compute; reflexivity].
  - intros h. eexists. split; [reflexivity | split; vm_compute; reflexivity].
  - intros h. unfold api, mock_api.
    destruct (decide (1 <= poll_count op h)) as [Hd|Hd]; eexists; (split; [reflexivity|]).
    + intros _. vm_compute. eauto.
    + intros Hk. by destruct (Hd Hk).
  - intros h. eexists. split; [reflexivity | vm_compute; reflexivity].
  - lia.
Defined.

(** * Further properties of the cell *)

(** ** The loop over [versions], in closed form *)

Lemma remove_first_middle {A} `{EqDecision A, PyNorm A} (x : A) K R :
  Forall (fun y => ¬ py_eq y x) K -> remove_first x (K ++ x :: R) = Some (K ++ R).
Proof.
  induction K as [|y K IH]; simpl; intros Hx.
  - by rewrite decide_True.
  - apply Forall_cons in Hx as [Hxy Hx].
    rewrite decide_False by done. by rewrite IH.
Qed.

(** Among items no two of which are [==], none behind the walk is [==]
    to one ahead of it. *)
Lemma distinct_ahead {A} `{PyNorm A} (x : A) K R :
  NoDup (py_norm <$> (K ++ x :: R)) ->
  Forall (fun y => ¬ py_eq y x) K /\ NoDup (py_norm <$> (K ++ R)).
Proof.
  intros Hnd. split.
  - rewrite fmap_app, fmap_cons in Hnd. apply NoDup_app in Hnd as (_ & Hdis & _).
    apply Forall_forall. intros y Hy Heq. unfold py_eq in Heq.
    apply (Hdis (py_norm y)); [by apply list_elem_of_fmap_2|].
    rewrite Heq. apply list_elem_of_here.
  - apply (sublist_NoDup _ _ Hnd). apply fmap_sublist.
    apply sublist_app; [done|]. by apply sublist_cons.
Qed.

Lemma distinct_walk_distinct n (K R : list dict) :
  length R <= n -> NoDup (py_norm <$> (K ++ R)) -> distinct_walk K R.
Proof.
  revert K R. induction n as [|n IH]; intros K [|v R] Hlen Hnd; simpl in *;
    try done; try lia.
  destruct (contains "isDefault" v).
  - apply IH; [lia | by rewrite <- app_assoc].
  - apply distinct_ahead in Hnd as [Hv Hnd]. split; [done|].
    destruct R as [|w R]; [done|].
    apply IH; [simpl in *; lia | by rewrite <- app_assoc].
Qed.

(** In a spaced list the walk keeps only versions with the key, and a
    version with the key is not [==] to one without it. *)
Lemma distinct_walk_spaced n (K R : list dict) :
  length R <= n -> Forall has_default_key K -> spaced_versions R -> distinct_walk K R.
Proof.
  revert K R. induction n as [|n IH]; intros K [|v R] Hlen HK Hsp; simpl in *;
    try done; try lia.
  destruct Hsp as [Hv Hsp].
  destruct (contains "isDefault" v) eqn:Hk.
  - apply IH; [lia | | done].
    apply Forall_app. split; [done|]. apply Forall_singleton. by apply contains_spec.
  - split.
    + eapply Forall_impl; [exact HK|]. intros y Hy Heq. simpl in Hy.
      apply contains_false in Hk. apply (py_eq_lookup _ _ _ Heq) in Hy.
      rewrite Hk in Hy. by destruct Hy.
    + destruct R as [|w R]; [done|]. destruct Hsp as [_ Hsp].
      apply IH; [simpl in *; lia | | done].
      apply Forall_app. split; [done|]. apply Forall_singleton.
      apply contains_spec. by apply Hv.
Qed.

Lemma polls_cons ev t :
  polls (ev :: t) =
    match ev with Call (OperationsGet op) _ => op :: polls t | _ => polls t end.
Proof. by destruct ev as [[]| |]. Qed.

Lemma requests_cons ev t :
  requests (ev :: t) = match ev with Call rq _ => rq :: requests t | _ => requests t end.
Proof. by destruct ev. Qed.

Lemma for_in_end {A St} (items : St -> list A) body n i s h :
  items s !! i = None -> for_in items body n i s h = (Ret s, []).
Proof. intros H. destruct n; simpl; by rewrite H. Qed.

Section ClosedForms.

Variable api : trace -> request -> option response.

Lemma delete_non_default_from n (K R : list dict) dip h :
  length R <= n -> distinct_walk K R ->
  (forall v : dict, v ∈ R -> is_Some (v !! "name")) ->
  (forall h' n', exists r op, api h' (VersionsDelete n') = Some r
                              /\ r !! "error" = None /\ r !! "name" = Some op) ->
  exists dip' e,
    for_in fst (non_default_body api) n (length K) (K ++ R, dip) h =
      (Ret (K ++ kept_versions R, dip ++ dip'), e)
    /\ Forall2 (fun (v : dict) nm => v !! "name" = Some nm)
         (taken_versions R) (version_deletes e)
    /\ requests e = VersionsDelete <$> version_deletes e
    /\ length dip' = length (taken_versions R).
Proof.
  intros Hlen Hnd Hnames Hapi. revert K R dip h Hlen Hnd Hnames.
  induction n as [|n IH]; intros K R dip h Hlen Hnd Hnames.
  - destruct R; [|simpl in Hlen; lia]. exists [], [].
    rewrite for_in_end by (simpl; apply lookup_ge_None_2; rewrite length_app; simpl; lia).
    by rewrite !app_nil_r.
  - destruct R as [|v R].
    { exists [], [].
      rewrite for_in_end by (simpl; apply lookup_ge_None_2; rewrite length_app; simpl; lia).
      by rewrite !app_nil_r. }
    simpl for_in. simpl fst. rewrite list_lookup_middle by done.
    unfold bind. rewrite non_default_body_run. simpl fst. simpl snd.
    destruct (contains "isDefault" v) eqn:Hk.
    + destruct (IH (K ++ [v]) R dip (h ++ [])) as (dip' & e & Hrun & Hdel & Hrq & Hl).
      * simpl in Hlen. lia.
      * simpl in Hnd. by rewrite Hk in Hnd.
      * intros w Hw. apply Hnames. by right.
      * rewrite length_app in Hrun. simpl in Hrun.
        rewrite Nat.add_1_r, <- app_assoc in Hrun. simpl in Hrun. rewrite Hrun.
        exists dip', e. simpl. rewrite Hk. rewrite <- app_assoc. simpl. done.
    + simpl in Hnd. rewrite Hk in Hnd. destruct Hnd as [Hv Hnd].
      rewrite (remove_first_middle v K R Hv).
      rewrite delete_version_run.
      destruct (Hnames v) as [nm Hnm]; [by left|]. rewrite Hnm. cbv zeta.
      destruct (Hapi (h ++ [Print [PStr "Deleting version: "; PValue nm]]) nm)
        as (r & op & Hr & He & Ho).
      rewrite Hr. apply contains_false in He. rewrite He, Ho.
      destruct R as [|w R].
      * exists [op]. eexists.
        rewrite for_in_end by (simpl; apply lookup_ge_None_2; rewrite length_app; simpl; lia).
        simpl. rewrite Hk. rewrite !app_nil_r. split_and!; [done| |done|done].
        by repeat constructor.
      * match goal with |- context [for_in _ _ n _ _ ?hh] =>
          destruct (IH (K ++ [w]) R (dip ++ [op]) hh) as (dip' & e & Hrun & Hdel & Hrq & Hl) end.
        -- simpl in Hlen. lia.
        -- done.
        -- intros x Hx. apply Hnames. right. by right.
        -- rewrite length_app in Hrun. simpl in Hrun.
           rewrite Nat.add_1_r, <- !app_assoc in Hrun. simpl in Hrun. rewrite Hrun.
           exists (op :: dip'). eexists. simpl. rewrite Hk.
           split_and!; [done| | |by rewrite Hl].
           ++ by constructor.
           ++ simpl. by rewrite Hrq.
Qed.

Lemma poll_round_from n (K R : list payload) h :
  length R <= n -> NoDup (py_norm <$> (K ++ R)) ->
  (forall h' op, exists r, api h' (OperationsGet op) = Some r /\ is_Some (r !! "done")) ->
  exists e,
    for_in id (poll_body api) n (length K) (K ++ R) h = (Ret (K ++ odd_items R), e)
    /\ polls e = even_items R
    /\ requests e = OperationsGet <$> polls e
    /\ sleeps e = [].
Proof.
  intros Hlen Hnd Hapi. revert K R h Hlen Hnd.
  induction n as [|n IH]; intros K R h Hlen Hnd.
  - destruct R; [|simpl in Hlen; lia]. exists [].
    by rewrite for_in_end by (unfold id; apply lookup_ge_None_2; rewrite length_app; simpl; lia).
  - destruct R as [|x R].
    { exists []. by rewrite for_in_end by (unfold id; apply lookup_ge_None_2; rewrite length_app; simpl; lia). }
    simpl for_in. change (id (K ++ x :: R)) with (K ++ x :: R).
    rewrite list_lookup_middle by done.
    unfold bind. rewrite poll_body_run. cbv zeta.
    destruct (Hapi (h ++ [Print [PStr "Checking status for operation: "; PPayload x]]) x)
      as (r & Hr & Hd).
    rewrite Hr, (proj2 (contains_spec "done" r) Hd).
    apply distinct_ahead in Hnd as [Hx Hnd].
    rewrite (remove_first_middle x K R Hx). simpl app.
    destruct R as [|y R].
    + eexists.
      rewrite for_in_end by (unfold id; apply lookup_ge_None_2; rewrite length_app; simpl; lia).
      simpl. by rewrite !app_nil_r.
    + match goal with |- context [for_in _ _ n _ _ ?hh] =>
        destruct (IH (K ++ [y]) R hh) as (e & Hrun & Hp & Hrq & Hs) end.
      * simpl in Hlen. lia.
      * by rewrite <- app_assoc.
      * rewrite length_app in Hrun. simpl in Hrun.
        rewrite Nat.add_1_r, <- !app_assoc in Hrun. simpl in Hrun. rewrite Hrun.
        eexists. split_and!; [done| | |done].
        -- rewrite !polls_cons. cbn beta iota. by rewrite Hp.
        -- rewrite !requests_cons, !polls_cons. cbn beta iota. by rewrite Hrq.
Qed.

End ClosedForms.

Lemma kept_versions_spaced l :
  spaced_versions l ->
  kept_versions l = filter has_default_key l
  /\ taken_versions l = filter (fun v => ¬ has_default_key v) l.
Proof.
  induction l as [|v rest IH]; [done|]. intros [Hv Hrest].
  destruct (IH Hrest) as [IHk IHt]. simpl.
  destruct (contains "isDefault" v) eqn:Hk.
  - apply contains_spec in Hk.
    rewrite filter_cons_True by done.
    rewrite filter_cons_False by (intros H; by apply H).
    by rewrite IHk, IHt.
  - assert (Hnk : ¬ has_default_key v).
    { apply contains_false in Hk. unfold has_default_key. rewrite Hk. by intros [? ?]. }
    rewrite filter_cons_False by done. rewrite filter_cons_True by done.
    destruct rest as [|w rest']; [done|].
    specialize (Hv eq_refl). simpl in IHk, IHt. rewrite Hv in IHk, IHt.
    apply contains_spec in Hv.
    rewrite filter_cons_True in IHk by done.
    rewrite filter_cons_False in IHt by (intros H; by apply H).
    rewrite filter_cons_True by done.
    rewrite filter_cons_False by (intros H; by apply H).
    injection IHk as IHk. by rewrite IHk, IHt.
Qed.

(** The same in the loop over [versions]: the version named [True] is
    the one deleted, the one named [1] is the one removed. *)
Lemma versions_loop_equal_versions :
  let w : dict := {[ "name" := VStr "w" ]} in
  let v1 : dict := {[ "name" := VInt 1 ]} in
  let vt : dict := {[ "name" := VBool true ]} in
  let run := delete_non_default (mock_api [] [] 0) [w; v1; vt] [] in
  run.1 = Ret ([vt], [PVal (VStr "operations/delete_w"); PVal (VBool true)])
  /\ version_deletes run.2 = [VStr "w"; VBool true].
Proof. split; by vm_compute. Qed.

(** X1: for versions no two of which are [==] and that all have a
    name, and an API that answers every version delete with an
    operation name and no ["error"] key, the loop over [versions]
    returns; the list it leaves is [kept_versions], the deletes it sends
    are those of [taken_versions], in order, and it sends nothing else:
    a version without the key is deleted only when the iterator lands on
    it, and the version after each deleted one is kept unexamined. *)
Theorem versions_loop_closed_form api versions h :
  NoDup (py_norm <$> versions) ->
  (forall v : dict, v ∈ versions -> is_Some (v !! "name")) ->
  (forall h' n, exists r op, api h' (VersionsDelete n) = Some r
                             /\ r !! "error" = None /\ r !! "name" = Some op) ->
  exists dip e,
    delete_non_default api versions h = (Ret (kept_versions versions, dip), e)
    /\ Forall2 (fun (v : dict) nm => v !! "name" = Some nm)
         (taken_versions versions) (version_deletes e)
    /\ requests e = VersionsDelete <$> version_deletes e
    /\ length dip = length (taken_versions versions).
Proof.
  intros Hnd Hnames Hapi.
  destruct (delete_non_default_from api (length versions) [] versions [] h)
    as (dip & e & Hrun & H); [done | | done..|].
  { by apply (distinct_walk_distinct (length versions)). }
  exists dip, e. split; [|done]. exact Hrun.
Qed.

Lemma versions_loop_closed_form_witness :
  let vs := [version "v1"; version "v2"; version "v3"; default_version "v4"] in
  exists dip e,
    delete_non_default (mock_api [] [] 0) vs [] = (Ret ([version "v2"; default_version "v4"], dip), e)
    /\ Forall2 (fun (v : dict) nm => v !! "name" = Some nm)
         [version "v1"; version "v3"] (version_deletes e).
Proof.
  intros vs.
  destruct (versions_loop_closed_form (mock_api [] [] 0) vs []) as (dip & e & Hrun & Hdel & _).
  - apply (bool_decide_unpack _). vm_compute. exact I.
  - intros v Hv.
    repeat (apply elem_of_cons in Hv as [->|Hv]);
      [apply (bool_decide_unpack _); vm_compute; exact I ..|by apply elem_of_nil in Hv].
  - intros h' n. eexists _, _. split; [reflexivity|]. split; vm_compute; reflexivity.
  - exists dip, e. split; [exact Hrun | exact Hdel].
Defined.

(** X2: when, besides, no two versions without the key ["isDefault"]
    are next to each other in the list, the loop deletes exactly the
    versions without the key and leaves exactly those with it. *)
Theorem versions_loop_spaced api versions h :
  NoDup versions ->
  spaced_versions versions ->
  (forall v : dict, v ∈ versions -> is_Some (v !! "name")) ->
  (forall h' n, exists r op, api h' (VersionsDelete n) = Some r
                             /\ r !! "error" = None /\ r !! "name" = Some op) ->
  exists dip e,
    delete_non_default api versions h = (Ret (filter has_default_key versions, dip), e)
    /\ Forall2 (fun (v : dict) nm => v !! "name" = Some nm)
         (filter (fun v => ¬ has_default_key v) versions) (version_deletes e).
Proof.
  intros _ Hsp Hnames Hapi.
  destruct (delete_non_default_from api (length versions) [] versions [] h)
    as (dip & e & Hrun & Hdel & _); [done | | done..|].
  { by apply (distinct_walk_spaced (length versions)). }
  destruct (kept_versions_spaced versions Hsp) as [Hk Ht].
  exists dip, e. rewrite <- Hk, <- Ht. split; [exact Hrun | exact Hdel].
Qed.

Lemma versions_loop_spaced_witness :
  let vs := [version "v1"; default_version "v2"; version "v3"] in
  exists dip e,
    delete_non_default (mock_api [] [] 0) vs [] = (Ret ([default_version "v2"], dip), e)
    /\ Forall2 (fun (v : dict) nm => v !! "name" = Some nm)
         [version "v1"; version "v3"] (version_deletes e).
Proof.
  intros vs.
  destruct (versions_loop_spaced (mock_api [] [] 0) vs []) as (dip & e & Hrun & Hdel).
  - apply (bool_decide_unpack _). vm_compute. exact I.
  - vm_compute. repeat split; intros; try reflexivity; discriminate.
  - intros v Hv.
    repeat (apply elem_of_cons in Hv as [->|Hv]);
      [apply (bool_decide_unpack _); vm_compute; exact I ..|by apply elem_of_nil in Hv].
  - intros h' n. eexists _, _. split; [reflexivity|]. split; vm_compute; reflexivity.
  - exists dip, e. split; [exact Hrun | exact Hdel].
Defined.

(** ** A polling round, and the loop, when every operation is done *)

(** [True == 1]: [remove] of the handle [True] drops the [1] before
    it.  With three handles that all report ["done"], the round polls
    the first and the third and leaves the third. *)
Lemma poll_round_equal_handles :
  let ops := [PVal (VStr "x"); PVal (VInt 1); PVal (VBool true)] in
  let run := poll_round (mock_api [] [] 0) ops [] in
  run.1 = Ret [PVal (VBool true)]
  /\ polls run.2 = [PVal (VStr "x"); PVal (VBool true)].
Proof. split; by vm_compute. Qed.

(** X3: with pending handles no two of which are [==] and an API that
    reports every polled operation ["done"], one round polls the handles
    at positions 0, 2, 4, ... and removes them; the handles at positions
    1, 3, 5, ... are not polled and stay pending. *)
Theorem poll_round_all_done api pending h :
  NoDup (py_norm <$> pending) ->
  (forall h' op, exists r, api h' (OperationsGet op) = Some r /\ is_Some (r !! "done")) ->
  exists e,
    poll_round api pending h = (Ret (odd_items pending), e)
    /\ polls e = even_items pending
    /\ requests e = OperationsGet <$> polls e.
Proof.
  intros Hnd Hapi.
  destruct (poll_round_from api (length pending) [] pending h) as (e & Hrun & Hp & Hrq & _);
    [done..|].
  by exists e.
Qed.

Lemma poll_round_all_done_witness :
  let ops := [PVal (VStr "op1"); PVal (VStr "op2"); PVal (VStr "op3")] in
  exists e, poll_round (mock_api [] [] 0) ops [] = (Ret [PVal (VStr "op2")], e)
            /\ polls e = [PVal (VStr "op1"); PVal (VStr "op3")].
Proof.
  intros ops.
  destruct (poll_round_all_done (mock_api [] [] 0) ops []) as (e & Hrun & Hp & _).
  - apply (bool_decide_unpack _). vm_compute. exact I.
  - intros h' op. eexists. split; [reflexivity|]. by eexists.
  - exists e. split; [exact Hrun | exact Hp].
Defined.

Section AllDone.

Variable api : trace -> request -> option response.

Hypothesis all_done :
  forall h op, exists r, api h (OperationsGet op) = Some r /\ is_Some (r !! "done").

(** Each handle the iterator lands on is removed, or a handle [==] to
    it that comes earlier in the list: one item less either way, so a
    round halves the list. *)
Lemma poll_round_halves n i (l : list payload) h :
  length l <= n + i -> i <= length l ->
  exists l' e,
    for_in id (poll_body api) n i l h = (Ret l', e)
    /\ length l' = i + (length l - i) / 2.
Proof using all_done.
  revert i l h. induction n as [|n IH]; intros i l h Hlen Hi.
  - exists l, []. rewrite for_in_end by (unfold id; apply lookup_ge_None_2; lia).
    split; [done|]. replace (length l - i) with 0 by lia. simpl. lia.
  - destruct (l !! i) as [x|] eqn:Hx.
    2:{ apply lookup_ge_None_1 in Hx. exists l, [].
        rewrite for_in_end by (unfold id; apply lookup_ge_None_2; lia).
        split; [done|]. replace (length l - i) with 0 by lia. simpl. lia. }
    pose proof (lookup_lt_Some _ _ _ Hx) as Hlt.
    simpl for_in. change (id l) with l. rewrite Hx.
    unfold bind. rewrite poll_body_run. cbv zeta.
    destruct (all_done (h ++ [Print [PStr "Checking status for operation: "; PPayload x]]) x)
      as (r & Hr & Hd).
    rewrite Hr, (proj2 (contains_spec "done" r) Hd).
    destruct (remove_first_is_Some x l (list_elem_of_lookup_2 _ _ _ Hx)) as [l1 Hrm].
    rewrite Hrm. apply remove_first_length in Hrm.
    destruct (decide (length l = S i)) as [Heq|Hne].
    + rewrite for_in_end by (unfold id; apply lookup_ge_None_2; lia).
      eexists _, _. split; [done|].
      replace (length l - i) with 1 by lia. simpl. lia.
    + assert (Hhalf : (length l - i) / 2 = S ((length l1 - S i) / 2)).
      { replace (length l - i) with (1 * 2 + (length l1 - S i)) by lia.
        by rewrite Nat.div_add_l. }
      match goal with |- context [for_in _ _ n _ _ ?hh] =>
        destruct (IH (S i) l1 hh) as (l' & e & Hrun & Hl) end; [lia | lia |].
      rewrite Hrun. eexists _, _. split; [done|]. lia.
Qed.

Lemma wait_until_deleted_all_done fuel pending h :
  length pending <= fuel ->
  exists j e,
    wait_until_deleted api fuel pending h = (Ret tt, e)
    /\ sleeps e = replicate j 5%Z
    /\ length pending < 2 ^ j
    /\ forall i, j = S i -> 2 ^ i <= length pending.
Proof using all_done.
  revert pending h. induction fuel as [|fuel IH]; intros [|p ps] h Hlen;
    try (simpl in Hlen; lia).
  - exists 0, []. split_and!; [done..|simpl; lia|intros; lia].
  - exists 0, []. rewrite wait_until_deleted_nil. split_and!; [done..|simpl; lia|intros; lia].
  - rewrite wait_until_deleted_step.
    destruct (poll_round_halves (length (p :: ps)) 0 (p :: ps) (h ++ waiting))
      as (l & e1 & Hrun & Hl); [lia..|].
    assert (Hround : poll_round api (p :: ps) (h ++ waiting) = (Ret l, e1)) by exact Hrun.
    pose proof (poll_round_sleeps api (p :: ps) (h ++ waiting)) as Hs1.
    rewrite Hround in Hs1 |- *. simpl in Hs1.
    rewrite Nat.sub_0_r, Nat.add_0_l in Hl.
    assert (Hdiv : 2 * (length (p :: ps) / 2) <= length (p :: ps)
                   /\ length (p :: ps) < 2 * (length (p :: ps) / 2) + 2).
    { pose proof (Nat.div_mod_eq (length (p :: ps)) 2).
      pose proof (Nat.mod_upper_bound (length (p :: ps)) 2). lia. }
    destruct (IH l (h ++ waiting ++ e1)) as (j & e2 & Hw & Hs2 & Hlt & Hge).
    + simpl in Hlen, Hdiv, Hl |- *. lia.
    + rewrite Hw. exists (S j), (waiting ++ e1 ++ e2). split_and!.
      * done.
      * rewrite !sleeps_app, Hs1, Hs2. done.
      * rewrite Nat.pow_succ_r'. lia.
      * intros i [= <-]. destruct j as [|i]; [simpl; lia|].
        specialize (Hge i eq_refl). rewrite Nat.pow_succ_r'. lia.
Qed.

End AllDone.

(** X4: with distinct pending handles and an API that reports every
    polled operation ["done"], a polling loop returns within as many
    rounds as there are handles, but not in one: for [n] handles it
    sleeps 5 seconds exactly [j] times, where [2^(j-1) <= n < 2^j]. *)
Theorem polling_loop_all_done_rounds api fuel pending h :
  (forall h' op, exists r, api h' (OperationsGet op) = Some r /\ is_Some (r !! "done")) ->
  NoDup pending -> length pending <= fuel ->
  exists j e,
    wait_until_deleted api fuel pending h = (Ret tt, e)
    /\ sleeps e = replicate j 5%Z
    /\ length pending < 2 ^ j
    /\ forall i, j = S i -> 2 ^ i <= length pending.
Proof. intros Hapi _. by apply wait_until_deleted_all_done. Qed.

Lemma polling_loop_all_done_rounds_witness :
  let ops := [PVal (VStr "op1"); PVal (VStr "op2"); PVal (VStr "op3"); PVal (VStr "op4")] in
  exists j e, wait_until_deleted (mock_api [] [] 0) 4 ops [] = (Ret tt, e)
              /\ sleeps e = replicate j 5%Z /\ 4 < 2 ^ j
              /\ forall i, j = S i -> 2 ^ i <= 4.
Proof.
  intros ops.
  apply (polling_loop_all_done_rounds (mock_api [] [] 0) 4 ops []).
  - intros h' op. eexists. split; [reflexivity|]. by eexists.
  - apply (bool_decide_unpack _). vm_compute. exact I.
  - simpl. lia.
Defined.

(** ** What a polling round never does *)

Lemma remove_first_sublist {A} `{EqDecision A, PyNorm A} (x : A) l l' :
  remove_first x l = Some l' -> l' `sublist_of` l.
Proof.
  revert l'. induction l as [|y l IH]; intros l'; simpl; [done|].
  case_decide.
  - intros [= ->]. by apply sublist_cons.
  - destruct (remove_first x l) as [l0|]; simpl; [|done].
    intros [= <-]. apply sublist_skip. by apply IH.
Qed.

(** X5: whatever the API answers, a polling round that returns leaves
    a sublist of the pending list (nothing is added or reordered), polls
    only handles of that list, and drops a handle only if a poll of this
    round, for it or for a handle that is [==] to it, answered with the
    key ["done"]. *)
Theorem poll_round_removes_only_done api pending h l e :
  poll_round api pending h = (Ret l, e) ->
  l `sublist_of` pending
  /\ (forall op, op ∈ polls e -> op ∈ pending)
  /\ (forall op, op ∈ pending -> op ∉ l -> confirmed op e)
  /\ sleeps e = [].
Proof.
  intros Hrun.
  pose proof (poll_round_sleeps api pending h) as Hs. rewrite Hrun in Hs.
  pose proof (poll_round_confirms api pending h l e Hrun) as Hc.
  pose proof (spec_for_in id (poll_body api)
    (fun l pre => l `sublist_of` pending /\ forall op, op ∈ polls pre -> op ∈ pending)
    (fun _ _ => True)) as Hrule.
  eapply run_of_spec in Hrun;
    [ | apply Hrule with (pre := []); [ | simpl; lia | split; [done | by intros ? ?%elem_of_nil] ] ].
  - simpl in Hrun. destruct Hrun as [[Hsub Hp] _]. split_and!; [done..| |done].
    intros op Hin Hout. by destruct (Hc op Hin).
  - clear. intros x s h pre Hx [Hsub Hp]. unfold spec. rewrite poll_body_run. simpl.
    assert (Hxp : x ∈ pending) by (eapply elem_of_sublist; [exact Hx | exact Hsub]).
    destruct (api _ _) as [r|]; [|done].
    assert (Hpolls : forall t, polls t = [x] -> forall op, op ∈ polls (pre ++ t) -> op ∈ pending).
    { intros t Ht op. rewrite polls_app, Ht, elem_of_app.
      intros [?|Hop]; [by auto|]. by apply list_elem_of_singleton in Hop as ->. }
    destruct (contains "done" r).
    + destruct (remove_first x s) as [s'|] eqn:Hrm; [|done]. split_and!.
      * etrans; [by eapply remove_first_sublist | done].
      * by apply Hpolls.
      * apply remove_first_length in Hrm. unfold id. lia.
    + split_and!; [done | by apply Hpolls | done].
Qed.

Lemma poll_round_removes_only_done_witness :
  let ops := [PVal (VStr "op1"); PVal (VStr "op2")] in
  let run := poll_round (mock_api [] [] 0) ops [] in
  [PVal (VStr "op2")] `sublist_of` ops
  /\ confirmed (PVal (VStr "op1")) run.2
  /\ sleeps run.2 = [].
Proof.
  intros ops run.
  destruct (poll_round_removes_only_done (mock_api [] [] 0) ops [] [PVal (VStr "op2")] run.2)
    as (Hsub & _ & Hc & Hs).
  - vm_compute. reflexivity.
  - split_and!; [exact Hsub | | exact Hs].
    apply Hc; [apply list_elem_of_here|].
    intros Hin. apply list_elem_of_singleton in Hin. discriminate Hin.
Defined.

(** ** Sweeps that delete nothing *)

(** X6: when the list answer carries an empty list under ["models"],
    the sweep returns after that one request: nothing is deleted,
    polled or waited for. *)
Theorem sweep_no_models api fuel project r :
  api [] (ModelsList ("projects/" +:+ project)) = Some r ->
  r !! "models" = Some (PList []) ->
  sweep api fuel project [] =
    (Ret tt, [Call (ModelsList ("projects/" +:+ project)) (Some r)]).
Proof.
  intros Hr Hm. rewrite (sweep_listed api fuel project r [] Hr Hm).
  simpl for_each. rewrite bind_ret_l.
  rewrite (bind_Ret _ _ _ _ _ (wait_until_deleted_nil api fuel _)). done.
Qed.

Lemma sweep_no_models_witness :
  let r : response := {[ "models" := PList [] ]} in
  sweep (fun _ _ => Some r) 3 "p" [] = (Ret tt, [Call (ModelsList "projects/p") (Some r)]).
Proof.
  intros r. apply (sweep_no_models (fun _ _ => Some r) 3 "p" r); vm_compute; reflexivity.
Defined.

Section NeverDone.

Variable api : trace -> request -> option response.

Hypothesis nothing_done : forall op, never_done api op.

Lemma sweep_model_adds_one fuel m dvd h dvd' e :
  sweep_model api fuel m dvd h = (Ret dvd', e) -> length dvd' = S (length dvd).
Proof.
  rewrite sweep_model_run. destruct (m !! "name") as [n|]; [|done]. cbv zeta.
  destruct (api _ _) as [r|]; [|done].
  destruct (r !! "versions") as [vs|]; [|done].
  destruct (delete_versions api fuel vs dvd _) as [o e'] eqn:Hd. intros [= -> _].
  unfold delete_versions in Hd.
  apply bind_run_Ret in Hd as (versions & ? & ? & _ & Hd & _).
  apply bind_run_Ret in Hd as (s & ? & ? & _ & Hd & _).
  apply bind_run_Ret in Hd as ([] & ? & ? & _ & Hd & _).
  apply bind_run_Ret in Hd as (v0 & ? & ? & _ & Hd & _).
  apply bind_run_Ret in Hd as (op & ? & ? & _ & Hd & _).
  injection Hd as <- _. rewrite length_app. simpl. lia.
Qed.

Lemma sweep_models_add fuel models dvd h dvd' e :
  for_each (sweep_model api fuel) models dvd h = (Ret dvd', e) ->
  length dvd' = length dvd + length models.
Proof.
  revert dvd h e. induction models as [|m models IH]; intros dvd h e; simpl.
  - intros [= -> _]. lia.
  - intros (d1 & e1 & e2 & H1 & H2 & _)%bind_run_Ret.
    apply sweep_model_adds_one in H1. apply IH in H2. lia.
Qed.

Lemma wait_until_deleted_never_done fuel pending h e :
  wait_until_deleted api fuel pending h = (Ret tt, e) -> pending = [].
Proof using nothing_done.
  destruct pending as [|op ps]; [done|]. intros Hrun.
  pose proof (wait_until_deleted_stuck api op (op :: ps) fuel h
                (Exists_cons_hd (fun y => py_eq y op) _ _ (py_eq_refl op)) (nothing_done op)) as H.
  unfold spec in H. by rewrite Hrun in H.
Qed.

Lemma sweep_never_done fuel project h :
  let run := sweep api fuel project h in
  model_deletes run.2 = []
  /\ (run.1 = Ret tt -> version_deletes run.2 = [] /\ polls run.2 = []).
Proof using nothing_done.
  simpl. unfold sweep, bind.
  pose proof (emits_get_models api no_model_delete project (fun _ _ => I) h) as Hg.
  pose proof (emits_get_models api model_phase_event project) as Hg'.
  destruct (get_models api project h) as [[ms|x|] e1] eqn:E1; simpl in Hg;
    [|split; [by apply no_model_delete_nil|done]..].
  assert (Hnil : forall o e, models_seq ms (h ++ e1) = (o, e) -> e = []).
  { intros o e. by destruct ms as [[| | |[|]]|]; simpl; intros [= _ <-]. }
  destruct (models_seq ms (h ++ e1)) as [[models|x|] e2] eqn:E2;
    pose proof (Hnil _ _ eq_refl) as ->; clear Hnil; rewrite ?app_nil_r;
    [|split; [by apply no_model_delete_nil|done]..].
  pose proof (emits_for_each no_model_delete (sweep_model api fuel) models []
    (fun m dvd => emits_sweep_model api no_model_delete (fun _ => I)
       (fun _ _ => I) I fuel m dvd (fun _ _ => I) (fun _ _ => I)) (h ++ e1)) as Hl.
  destruct (for_each (sweep_model api fuel) models [] (h ++ e1)) as [[dvd|x|] e3] eqn:E3;
    simpl in Hl;
    [|split; [apply no_model_delete_nil; simpl; rewrite !Forall_app; by split_and! | done]..].
  pose proof (emits_wait_until_deleted api no_model_delete (fun _ => I)
    (fun _ _ => I) I fuel dvd ((h ++ e1) ++ e3)) as Hw.
  destruct (wait_until_deleted api fuel dvd ((h ++ e1) ++ e3)) as [[[]|x|] e4] eqn:E4;
    simpl in Hw;
    [|split; [apply no_model_delete_nil; simpl; rewrite !Forall_app; by split_and! | done]..].
  apply wait_until_deleted_never_done in E4 as Hdvd. subst dvd.
  apply sweep_models_add in E3 as Hlen. destruct models as [|m models]; [|simpl in Hlen; lia].
  simpl in E3. injection E3 as <-. rewrite wait_until_deleted_nil in E4. injection E4 as <-.
  simpl. rewrite !app_nil_r.
  unfold get_models in E1. rewrite bind_execute in E1.
  destruct (api h _) as [r|]; [|done].
  unfold getitem in E1. destruct (r !! "models"); [|done].
  injection E1 as _ <-. done.
Qed.

End NeverDone.

(** X7: with an API none of whose get-operation answers ever has the
    key ["done"], no run of the sweep sends a delete-model request, and
    the sweep returns only when it had no model to work on, having sent
    no delete and no poll. *)
Theorem sweep_never_done_deletes_no_model api fuel project :
  (forall op h r, api h (OperationsGet op) = Some r -> r !! "done" = None) ->
  model_deletes (sweep api fuel project []).2 = []
  /\ ((sweep api fuel project []).1 = Ret tt ->
      version_deletes (sweep api fuel project []).2 = []
      /\ polls (sweep api fuel project []).2 = []).
Proof.
  intros H. apply sweep_never_done. intros op op' h r _. apply H.
Qed.

Lemma sweep_never_done_deletes_no_model_witness :
  let api := mock_stuck_api [version "clf_add_to_cart"] [default_version "v1"] in
  model_deletes (sweep api 4 "p" []).2 = []
  /\ ((sweep api 4 "p" []).1 = Ret tt ->
      version_deletes (sweep api 4 "p" []).2 = [] /\ polls (sweep api 4 "p" []).2 = []).
Proof.
  intros api. apply (sweep_never_done_deletes_no_model api 4 "p").
  intros op h r [= <-]. vm_compute. reflexivity.
Defined.

(** ** Online prediction *)

Section PredictionProofs.

Context {row score : Type}.

Variable predict_api :
  list (predict_request row) -> predict_request row ->
  option (gmap string (predict_field score)).

Implicit Types (rows : list row) (log : list (predict_request row)).

Lemma slices_concat batch_size rows k :
  concat ((fun i => iloc_slice (i * batch_size) ((i + 1) * batch_size) rows) <$> seq 0 k)
  = take (k * batch_size) rows.
Proof.
  induction k as [|k IH]; [done|].
  rewrite seq_S, fmap_app, concat_app, IH. simpl. rewrite app_nil_r.
  unfold iloc_slice. replace ((k + 1) * batch_size - k * batch_size) with batch_size by lia.
  rewrite take_take_drop. f_equal. lia.
Qed.

Lemma batches_concat batch_size rows :
  0 < batch_size -> concat (batches batch_size rows) = rows.
Proof.
  intros Hb. unfold batches. rewrite slices_concat. apply take_ge.
  pose proof (Nat.div_mod_eq (length rows) batch_size).
  pose proof (Nat.mod_upper_bound (length rows) batch_size). nia.
Qed.

Lemma batches_bound batch_size rows :
  Forall (fun b => length b <= batch_size) (batches batch_size rows).
Proof.
  unfold batches. apply Forall_fmap, Forall_forall. intros i _. simpl.
  unfold iloc_slice. rewrite length_take. lia.
Qed.

Lemma batches_last batch_size rows :
  0 < batch_size ->
  last (batches batch_size rows)
  = Some (drop (length rows / batch_size * batch_size) rows).
Proof.
  intros Hb. unfold batches. rewrite Nat.add_1_r, seq_S, fmap_app. simpl.
  rewrite last_snoc. f_equal. unfold iloc_slice. apply take_ge.
  rewrite length_drop.
  pose proof (Nat.div_mod_eq (length rows) batch_size).
  pose proof (Nat.mod_upper_bound (length rows) batch_size). nia.
Qed.

Lemma get_predictions_log project_id log instances :
  (get_predictions predict_api project_id log instances).2
  = log ++ [PredictRequest (version_endpoint project_id) instances].
Proof. done. Qed.

(** The loop sends the requests of its batch numbers in order, up to
    and including the first that fails. *)
Lemma predict_batches_log batch_size project_id rows numbers scores log :
  let run := predict_batches predict_api batch_size project_id rows numbers scores log in
  exists k, k <= length numbers
            /\ run.2 = log ++ (batch_request batch_size project_id rows <$> take k numbers)
            /\ (run.1.1 = None -> k = length numbers).
Proof.
  revert scores log. induction numbers as [|i numbers IH]; intros scores log;
    cbn [predict_batches length].
  - exists 0. simpl. by rewrite app_nil_r.
  - pose proof (get_predictions_log project_id log
                  (iloc_slice (i * batch_size) ((i + 1) * batch_size) rows)) as Hlog.
    destruct (get_predictions predict_api project_id log _) as [[pred|e] log'].
    + simpl in Hlog. subst log'. destruct (scores_of pred) as [ss|e].
      * destruct (IH (scores ++ ss)
                    (log ++ [PredictRequest (version_endpoint project_id)
                               (iloc_slice (i * batch_size) ((i + 1) * batch_size) rows)]))
          as (k & Hk & Hrun & Hnone).
        exists (S k). split_and!; [lia| |intros H; by rewrite Hnone].
        rewrite Hrun. simpl. by rewrite <- app_assoc.
      * exists 1. simpl. rewrite ?take_0. split_and!; [lia|done|done].
    + simpl in Hlog. subst log'. exists 1. simpl. rewrite ?take_0.
      split_and!; [lia|done|done].
Qed.

Lemma first_scores_length (ps : list (gmap string (list score))) :
  Forall (fun p : gmap string (list score) =>
            exists x xs, p !! "dense_1" = Some (x :: xs)) ps ->
  exists ss, first_scores ps = POk ss /\ length ss = length ps.
Proof.
  induction 1 as [|p ps (x & xs & Hp) _ (ss & Hss & Hl)]; simpl.
  - by exists [].
  - unfold first_score. rewrite Hp. simpl. rewrite Hss. exists (x :: ss). simpl. by rewrite Hl.
Qed.

Lemma predict_batches_scores batch_size project_id rows numbers scores log :
  answers_each_instance predict_api ->
  let run := predict_batches predict_api batch_size project_id rows numbers scores log in
  exists ss,
    run.1 = (None, scores ++ ss)
    /\ length ss =
       length (concat ((fun i => iloc_slice (i * batch_size) ((i + 1) * batch_size) rows)
                         <$> numbers)).
Proof.
  intros Hgood. revert scores log.
  induction numbers as [|i numbers IH]; intros scores log; simpl.
  - exists []. by rewrite app_nil_r.
  - unfold get_predictions, predict_json.
    match goal with |- context [predict_api log ?rq] =>
      destruct (Hgood log rq) as (r & ps & -> & -> & -> & Hlen & Hps) end.
    simpl. destruct (first_scores_length ps Hps) as (ss & -> & Hss).
    match goal with |- context [predict_batches _ _ _ _ _ _ ?l] =>
      destruct (IH (scores ++ ss) l) as (ss' & Hrun & Hl) end.
    exists (ss ++ ss'). rewrite Hrun, <- app_assoc. split; [done|].
    rewrite !length_app, Hl, Hss, Hlen. done.
Qed.

End PredictionProofs.

(** X8: for a positive batch size, the batch loop sends its requests
    to the one version endpoint, each with the next batch of the table,
    in order, and stops after the first that fails; a run that ends
    without an exception has sent every batch.  The batches are
    [len // batch_size + 1] in number, none longer than the batch size,
    and put end to end they are the table: no row is sent twice or left
    out. *)
Theorem predict_all_sends_batches {row score : Type}
    (predict_api : list (predict_request row) -> predict_request row ->
                   option (gmap string (predict_field score)))
    batch_size project_id (rows : list row) log :
  0 < batch_size ->
  let run := predict_all predict_api batch_size project_id rows log in
  (exists sent,
      run.2 = log ++ sent
      /\ Forall (fun rq => predict_name rq = version_endpoint project_id) sent
      /\ (predict_instances <$> sent) `prefix_of` batches batch_size rows
      /\ (run.1.1 = None -> predict_instances <$> sent = batches batch_size rows))
  /\ concat (batches batch_size rows) = rows
  /\ Forall (fun b => length b <= batch_size) (batches batch_size rows)
  /\ length (batches batch_size rows) = length rows / batch_size + 1.
Proof.
  intros Hb run. split_and!.
  - destruct (predict_batches_log predict_api batch_size project_id rows
                (seq 0 (length rows / batch_size + 1)) [] log) as (k & Hk & Hrun & Hnone).
    fold (predict_all predict_api batch_size project_id rows log) in Hrun, Hnone.
    fold run in Hrun, Hnone.
    exists (batch_request batch_size project_id rows
              <$> take k (seq 0 (length rows / batch_size + 1))).
    split_and!; [done| | |].
    + apply Forall_fmap, Forall_forall. by intros i _.
    + rewrite <- list_fmap_compose. unfold batches.
      rewrite <- (take_drop k (seq 0 (length rows / batch_size + 1))) at 2.
      rewrite fmap_app. by apply prefix_app_r.
    + intros Hn. rewrite <- list_fmap_compose. unfold batches.
      rewrite take_ge; [done|]. rewrite (Hnone Hn). done.
  - by apply batches_concat.
  - apply batches_bound.
  - unfold batches. by rewrite length_fmap, length_seq.
Qed.

Lemma predict_all_sends_batches_witness :
  let run := predict_all mock_predict BATCH_SIZE "p" [7; 8; 9] [] in
  (exists sent,
      run.2 = [] ++ sent
      /\ Forall (fun rq => predict_name rq = version_endpoint "p") sent
      /\ (predict_instances <$> sent) `prefix_of` batches BATCH_SIZE [7; 8; 9]
      /\ (run.1.1 = None -> predict_instances <$> sent = batches BATCH_SIZE [7; 8; 9]))
  /\ concat (batches BATCH_SIZE [7; 8; 9]) = [7; 8; 9]
  /\ Forall (fun b => length b <= BATCH_SIZE) (batches BATCH_SIZE [7; 8; 9])
  /\ length (batches BATCH_SIZE [7; 8; 9]) = length [7; 8; 9] / BATCH_SIZE + 1.
Proof.
  apply (predict_all_sends_batches mock_predict BATCH_SIZE "p" [7; 8; 9] []).
  unfold BATCH_SIZE. lia.
Defined.

(** X9: in a run that ends without an exception, the last request
    carries the [len mod batch_size] rows left after the full batches:
    when the batch size divides the number of rows, and so for an empty
    table, the loop's last request has no instance at all. *)
Theorem predict_all_last_request {row score : Type}
    (predict_api : list (predict_request row) -> predict_request row ->
                   option (gmap string (predict_field score)))
    batch_size project_id (rows : list row) log :
  0 < batch_size ->
  let run := predict_all predict_api batch_size project_id rows log in
  run.1.1 = None ->
  exists rq, last run.2 = Some rq
             /\ predict_instances rq = drop (length rows / batch_size * batch_size) rows
             /\ length (predict_instances rq) = length rows mod batch_size.
Proof.
  intros Hb run Hn.
  destruct (predict_batches_log predict_api batch_size project_id rows
              (seq 0 (length rows / batch_size + 1)) [] log) as (k & Hk & Hrun & Hnone).
  fold (predict_all predict_api batch_size project_id rows log) in Hrun, Hnone.
  fold run in Hrun, Hnone. rewrite (Hnone Hn), take_ge in Hrun by done.
  rewrite Nat.add_1_r, seq_S, fmap_app in Hrun. simpl in Hrun.
  eexists. rewrite Hrun, app_assoc, last_snoc. split; [done|]. simpl.
  assert (Hd : iloc_slice (length rows / batch_size * batch_size)
                 ((length rows / batch_size + 1) * batch_size) rows
               = drop (length rows / batch_size * batch_size) rows).
  { unfold iloc_slice. apply take_ge. rewrite length_drop.
    pose proof (Nat.div_mod_eq (length rows) batch_size).
    pose proof (Nat.mod_upper_bound (length rows) batch_size). nia. }
  rewrite Hd. split; [done|]. rewrite length_drop.
  pose proof (Nat.div_mod_eq (length rows) batch_size). lia.
Qed.

Lemma predict_all_last_request_witness :
  exists rq, last (predict_all mock_predict 2 "p" [7; 8; 9; 10] []).2 = Some rq
             /\ predict_instances rq = drop (length [7; 8; 9; 10] / 2 * 2) [7; 8; 9; 10]
             /\ length (predict_instances rq) = length [7; 8; 9; 10] mod 2.
Proof.
  apply (predict_all_last_request mock_predict 2 "p" [7; 8; 9; 10] []).
  - lia.
  - vm_compute. reflexivity.
Defined.

(** X10: with a service that answers every request with one prediction
    per instance, each with a score under ["dense_1"], and no
    ["error"], the loop ends without an exception and has gathered as
    many scores as the table has rows, so that they line up with the
    session ids. *)
Theorem predict_all_one_score_per_row {row score : Type}
    (predict_api : list (predict_request row) -> predict_request row ->
                   option (gmap string (predict_field score)))
    batch_size project_id (rows : list row) log :
  0 < batch_size ->
  answers_each_instance predict_api ->
  exists scores,
    (predict_all predict_api batch_size project_id rows log).1 = (None, scores)
    /\ length scores = length rows.
Proof.
  intros Hb Hgood.
  destruct (predict_batches_scores predict_api batch_size project_id rows
              (seq 0 (length rows / batch_size + 1)) [] log Hgood) as (ss & Hrun & Hl).
  exists ss. split; [exact Hrun|].
  rewrite Hl. fold (batches batch_size rows). by rewrite batches_concat.
Qed.

Lemma predict_all_one_score_per_row_witness :
  exists scores,
    (predict_all mock_predict 2 "p" [7; 8; 9] []).1 = (None, scores)
    /\ length scores = length [7; 8; 9].
Proof.
  apply (predict_all_one_score_per_row mock_predict 2 "p" [7; 8; 9] []).
  - lia.
  - intros log rq. eexists _, _. split; [reflexivity|].
    split; [reflexivity|]. split; [reflexivity|].
    split; [by rewrite length_fmap|].
    apply Forall_fmap, Forall_forall. intros i _. by eexists _, _.
Defined.

Lemma predict_batches_app {row score : Type}
    (predict_api : list (predict_request row) -> predict_request row ->
                   option (gmap string (predict_field score)))
    batch_size project_id (rows : list row) numbers1 numbers2 scores log :
  predict_batches predict_api batch_size project_id rows (numbers1 ++ numbers2) scores log =
    match predict_batches predict_api batch_size project_id rows numbers1 scores log with
    | (None, scores1, log1) =>
        predict_batches predict_api batch_size project_id rows numbers2 scores1 log1
    | stopped => stopped
    end.
Proof.
  revert scores log. induction numbers1 as [|i numbers1 IH]; intros scores log; [done|].
  cbn [app predict_batches].
  destruct (get_predictions predict_api project_id log _) as [[pred|e] log']; [|done].
  destruct (scores_of pred) as [ss|e]; [|done]. apply IH.
Qed.

(** X11: when the batches before number [i] went through and the
    answer to batch [i] has an ["error"] key, the loop stops with a
    [RuntimeError] carrying that payload; when instead its predictions
    cannot be read, the loop stops with the exception of the
    comprehension.  Either way the scores of the earlier batches stay in
    [prediction_scores], none of batch [i] is added, and no later batch
    is requested. *)
Theorem predict_batches_stop_at_failure {row score : Type}
    (predict_api : list (predict_request row) -> predict_request row ->
                   option (gmap string (predict_field score)))
    batch_size project_id (rows : list row) numbers1 i numbers2 scores log scores1 log1 r :
  predict_batches predict_api batch_size project_id rows numbers1 scores log
    = (None, scores1, log1) ->
  predict_api log1 (batch_request batch_size project_id rows i) = Some r ->
  (forall err, r !! "error" = Some err ->
     predict_batches predict_api batch_size project_id rows
       (numbers1 ++ i :: numbers2) scores log
     = (Some (RuntimeError err), scores1,
        log1 ++ [batch_request batch_size project_id rows i]))
  /\ (forall pred e, r !! "error" = None -> r !! "predictions" = Some pred ->
        scores_of pred = PRaise e ->
        predict_batches predict_api batch_size project_id rows
          (numbers1 ++ i :: numbers2) scores log
        = (Some e, scores1, log1 ++ [batch_request batch_size project_id rows i])).
Proof.
  intros Hrun Hr. unfold batch_request in Hr. split.
  - intros err He. rewrite predict_batches_app, Hrun. cbn [predict_batches].
    unfold get_predictions, predict_json. fold (version_endpoint project_id).
    by rewrite Hr, He.
  - intros pred e He Hp Hs. rewrite predict_batches_app, Hrun. cbn [predict_batches].
    unfold get_predictions, predict_json. fold (version_endpoint project_id).
    by rewrite Hr, He, Hp, Hs.
Qed.

Lemma predict_batches_stop_at_failure_witness :
  predict_batches (mock_predict_error 1) 2 "p" [7; 8; 9] ([0] ++ 1 :: [2]) [] []
  = (Some (RuntimeError (FValue (VStr "Prediction failed"))), [7; 8],
     [batch_request 2 "p" [7; 8; 9] 0] ++ [batch_request 2 "p" [7; 8; 9] 1]).
Proof.
  destruct (predict_batches_stop_at_failure (mock_predict_error 1) 2 "p" [7; 8; 9]
              [0] 1 [2] [] [] [7; 8] [batch_request 2 "p" [7; 8; 9] 0]
              {[ "error" := FValue (VStr "Prediction failed") ]}) as [H _].
  - vm_compute. reflexivity.
  - vm_compute. reflexivity.
  - apply H. vm_compute. reflexivity.
Defined.
